(** * Terraspec command-line orchestrator: discovery, per-case pipeline,
      report aggregation and attribute-path rendering.

    The development embeds the [main] package of terraspec (the
    orchestrator around the validation library) and proves the properties
    its specification states about it.  Two revisions of the package are
    embedded: the mock-aware one (top level of this file) and the older
    one of [main.go] (module [MainGo]), which has neither mock injection
    nor a refresh stage.

    Calls into Go's standard library are modelled by functions written
    after the library's documented behaviour on Unix ([Filepath],
    [Strconv]); calls into terraform and the terraspec library, whose
    code is not part of the package, are events of a program tree that a
    handler interprets. *)

From Stdlib Require Import ZArith String Ascii List Lia Bool.
From Stdlib Require Import DecimalString DecimalZ DecimalPos.
From Stdlib Require Import Sorting.Permutation Sorting.Sorted.
From stdpp Require Import base option list strings relations sorting.

Import ListNotations.
Local Open Scope string_scope.
Local Open Scope Z_scope.

(** ** Go standard library: [path/filepath] on Unix *)

Module Filepath.

Definition Separator : ascii := "/"%char.

Definition IsPathSeparator (c : ascii) : bool := Ascii.eqb c Separator.

Definition isDot (c : ascii) : bool := Ascii.eqb c "."%char.

(** [Ext]: scan from the end of the path for a dot, stopping at the
    last path separator; the reversed path is consumed and the suffix
    already passed is accumulated. *)
Fixpoint ext_scan (rpath suffix : list ascii) : list ascii :=
  match rpath with
  | [] => []
  | c :: r =>
      if IsPathSeparator c then []
      else if isDot c then c :: suffix
      else ext_scan r (c :: suffix)
  end.

Definition Ext (path : string) : string :=
  string_of_list_ascii (ext_scan (rev (list_ascii_of_string path)) []).

(** Components of a path: the text between separators. *)
Fixpoint split_sep (cur : list ascii) (path : list ascii) : list (list ascii) :=
  match path with
  | [] => [rev cur]
  | c :: r =>
      if IsPathSeparator c then rev cur :: split_sep [] r
      else split_sep (c :: cur) r
  end.

Definition is_dot (comp : list ascii) : bool :=
  match comp with
  | [c] => isDot c
  | _ => false
  end.

Definition is_dotdot (comp : list ascii) : bool :=
  match comp with
  | [c; d] => isDot c && isDot d
  | _ => false
  end.

(** One round of [Clean]'s loop; [out] is the output buffer as a stack
    of components, last written first. *)
Definition clean_step (rooted : bool) (out : list (list ascii)) (comp : list ascii)
  : list (list ascii) :=
  match comp with
  | [] => out
  | _ =>
      if is_dot comp then out
      else if is_dotdot comp then
        match out with
        | top :: rest =>
            if is_dotdot top then comp :: out else rest
        | [] => if rooted then out else [comp]
        end
      else comp :: out
  end.

Fixpoint join_sep (comps : list (list ascii)) : list ascii :=
  match comps with
  | [] => []
  | [c] => c
  | c :: r => c ++ Separator :: join_sep r
  end.

Definition Clean (path : string) : string :=
  match list_ascii_of_string path with
  | [] => "."
  | (c :: _) as p =>
      let rooted := IsPathSeparator c in
      let out := rev (fold_left (clean_step rooted) (split_sep [] p) []) in
      let body := join_sep out in
      string_of_list_ascii
        (if rooted then Separator :: body
         else match body with [] => ["."%char] | _ => body end)
  end.

(** [Join] of two elements: empty elements before the first non-empty
    one are dropped, the rest is joined by the separator and cleaned. *)
Definition Join (a b : string) : string :=
  if String.eqb a "" then
    if String.eqb b "" then "" else Clean b
  else Clean (a ++ String Separator b).

Fixpoint strip_sep (rpath : list ascii) : list ascii :=
  match rpath with
  | c :: r => if IsPathSeparator c then strip_sep r else rpath
  | [] => []
  end.

Fixpoint last_elem (rpath : list ascii) : list ascii :=
  match rpath with
  | c :: r => if IsPathSeparator c then [] else c :: last_elem r
  | [] => []
  end.

Definition Base (path : string) : string :=
  match list_ascii_of_string path with
  | [] => "."
  | p =>
      match rev (last_elem (strip_sep (rev p))) with
      | [] => String Separator ""
      | e => string_of_list_ascii e
      end
  end.

End Filepath.

(** ** Go standard library: [strconv] *)

Module Strconv.

(** Decimal rendering of a signed integer. *)
Definition Itoa (i : Z) : string := NilZero.string_of_int (Z.to_int i).

End Strconv.

(** ** go-cty: numbers, values and paths *)

Module Cty.

(** A [big.Float]: the dyadic number [mant * 2^exp], or an infinity. *)
Inductive BigFloat :=
| Finite (mant exp : Z)
| Inf (negative : bool).

Inductive Accuracy := Below | Exact | Above.

Definition MinInt64 : Z := - 2 ^ 63.
Definition MaxInt64 : Z := 2 ^ 63 - 1.

(** The integer obtained by truncating a finite number towards zero. *)
Definition trunc (mant exp : Z) : Z :=
  if 0 <=? exp then mant * 2 ^ exp else Z.quot mant (2 ^ (- exp)).

Definition is_integer (mant exp : Z) : bool :=
  if 0 <=? exp then true else Z.rem mant (2 ^ (- exp)) =? 0.

(** [Int64] of a [big.Float]: truncation towards zero, saturating at the
    bounds of [int64]; the second component tells how the result
    relates to the number. *)
Definition Int64 (x : BigFloat) : Z * Accuracy :=
  match x with
  | Inf true => (MinInt64, Above)
  | Inf false => (MaxInt64, Below)
  | Finite m e =>
      let t := trunc m e in
      if t <? MinInt64 then (MinInt64, Above)
      else if MaxInt64 <? t then (MaxInt64, Below)
      else if is_integer m e then (t, Exact)
      else if m <? 0 then (t, Above) else (t, Below)
  end.

(** The values a path index can hold.  A null or unknown value has no
    number to give, whatever its type. *)
Inductive Value :=
| NumberVal (f : BigFloat)
| StringVal (s : string)
| BoolVal (b : bool)
| NullVal
| UnknownVal.

(** [Value.AsBigFloat] panics unless the value is a known, non-null
    number; [None] stands for the panic. *)
Definition AsBigFloat (v : Value) : option BigFloat :=
  match v with
  | NumberVal f => Some f
  | _ => None
  end.

Inductive PathStep :=
| GetAttrStep (Name : string)
| IndexStep (Key : Value).

Definition Path := list PathStep.

End Cty.

(** ** terraform [tfdiags] *)

Module Tfdiags.

(** [Error] and [Warning] are terraform's severities; [Info] is the one
    the terraspec library adds for a matched assertion. *)
Inductive Severity := Error | Warning | Info.

Definition Severity_eqb (a b : Severity) : bool :=
  match a, b with
  | Error, Error | Warning, Warning | Info, Info => true
  | _, _ => false
  end.

Record Diagnostic := {
  severity : Severity;
  Summary : string;
  Detail : string;
  Attribute : option Cty.Path
}.

Definition Diagnostics := list Diagnostic.

Definition HasErrors (diags : Diagnostics) : bool :=
  existsb (fun diag => Severity_eqb (severity diag) Error) diags.

End Tfdiags.

(** ** Package [main]: data *)

Import Tfdiags.

Record testCase := {
  dir : string;
  variableFile : string;
  specFile : string
}.

Definition name (tc : testCase) : string := Filepath.Base (dir tc).

(** The field [name] of the report is [rname] here, [name] being the
    method of [testCase]. *)
Record testReport := {
  rname : string;
  plan : string;
  report : Diagnostics
}.

(** ** Directory listings *)

Record FileInfo := {
  Name : string;
  IsDir : bool
}.

(** The entries of each directory, in no particular order; [None] for a
    path that cannot be opened as a directory. *)
Definition FileSystem := string -> option (list FileInfo).

(** Order of two entries by file name, byte by byte. *)
Definition by_name (a b : FileInfo) : Prop := (Name a ≤ Name b)%string.

Global Instance by_name_dec : RelDecision by_name.
Proof. intros a b. unfold by_name. apply _. Defined.

Global Instance by_name_trans : Transitive by_name.
Proof. intros a b c. unfold by_name. apply transitivity. Qed.

Global Instance by_name_total : Total by_name.
Proof. intros a b. unfold by_name. apply total, _. Qed.

(** [ioutil.ReadDir]: the entries sorted by file name; opening the empty
    path fails. *)
Definition ReadDir (fs : FileSystem) (dirname : string) : option (list FileInfo) :=
  if (dirname =? "")%string then None
  else option_map (merge_sort by_name) (fs dirname).

(** ** Discovery: [findCase] and [findCases] *)

(** The loop body of [findCase]; the state is the pair
    [(varFile, specFile)]. *)
Definition findCase_body (rootDir : string) (st : string * string) (fi : FileInfo)
  : string * string :=
  if IsDir fi then st
  else
    let varFile :=
      if (Filepath.Ext (Name fi) =? ".tfvars")%string
      then Filepath.Join rootDir (Name fi) else fst st in
    let specFile :=
      if (Filepath.Ext (Name fi) =? ".tfspec")%string
      then Filepath.Join rootDir (Name fi) else snd st in
    (varFile, specFile).

Definition findCase (fs : FileSystem) (rootDir : string) : option testCase :=
  match ReadDir fs rootDir with
  | None => None
  | Some fis =>
      let '(varFile, specFile) := fold_left (findCase_body rootDir) fis ("", "") in
      if negb (specFile =? "")%string
      then Some {| dir := rootDir; variableFile := varFile; specFile := specFile |}
      else None
  end.

(** What makes [log.Fatal] end the process. *)
Inductive Fatal :=
| FatalReadDir (dirname : string)
| FatalNoTestCase
| FatalError (err : string).

Inductive Run (A : Type) :=
| Returns (a : A)
| Dies (cause : Fatal).
Arguments Returns {A} a.
Arguments Dies {A} cause.

Definition findCases_body (fs : FileSystem) (rootDir : string)
    (testCases : list testCase) (rootFi : FileInfo) : list testCase :=
  if negb (IsDir rootFi) then testCases
  else
    match findCase fs (Filepath.Join rootDir (Name rootFi)) with
    | Some tc => (testCases ++ [tc])%list
    | None => testCases
    end.

Definition findCases (fs : FileSystem) (rootDir : string) : Run (list testCase) :=
  match ReadDir fs rootDir with
  | None => Dies (FatalReadDir rootDir)
  | Some rootFis =>
      let testCases := fold_left (findCases_body fs rootDir) rootFis [] in
      let testCases :=
        match findCase fs rootDir with
        | Some tc => (testCases ++ [tc])%list
        | None => testCases
        end in
      Returns testCases
  end.

(** Vocabulary of the specification for discovery. *)
Definition isSpecFile (fi : FileInfo) : bool :=
  negb (IsDir fi) && (Filepath.Ext (Name fi) =? ".tfspec")%string.

Definition isVarFile (fi : FileInfo) : bool :=
  negb (IsDir fi) && (Filepath.Ext (Name fi) =? ".tfvars")%string.

(** A directory directly contains a spec file. *)
Definition hasSpecFile (fs : FileSystem) (d : string) : bool :=
  match ReadDir fs d with
  | Some fis => existsb isSpecFile fis
  | None => false
  end.

(** The path of an entry of directory [d]. *)
Definition pathIn (d : string) (fi : FileInfo) : string := Filepath.Join d (Name fi).

(** The last entry of a listing that satisfies [P]. *)
Definition lastMatch (P : FileInfo -> bool) (fis : list FileInfo) : option FileInfo :=
  last (filter P fis).

(** The immediate subdirectories of a directory, as paths, in listing
    order. *)
Definition subdirs (rootDir : string) (rootFis : list FileInfo) : list string :=
  map (pathIn rootDir) (filter IsDir rootFis).

(** The test case the specification expects for a directory with the
    listing [fis]. *)
Definition caseOf (d : string) (fis : list FileInfo) (fi : FileInfo) : testCase :=
  {| dir := d;
     variableFile := from_option (pathIn d) "" (lastMatch isVarFile fis);
     specFile := pathIn d fi |}.

(** ** Attribute-path rendering: [formatPath] *)

(** The loop of [formatPath]: [sb] is the builder's content, [i] the
    index of the step; [None] is the panic of [AsBigFloat]. *)
Fixpoint formatPath_loop (sb : string) (i : nat) (path : Cty.Path) : option string :=
  match path with
  | [] => Some sb
  | Cty.GetAttrStep n :: rest =>
      let sb := if (0 <? i)%nat then sb ++ "." else sb in
      formatPath_loop (sb ++ n) (S i) rest
  | Cty.IndexStep key :: rest =>
      match Cty.AsBigFloat key with
      | None => None
      | Some f =>
          let '(val, _) := Cty.Int64 f in
          formatPath_loop (sb ++ "[" ++ Strconv.Itoa val ++ "]") (S i) rest
      end
  end.

Definition formatPath (path : Cty.Path) : option string :=
  formatPath_loop "" 0 path.

(** A known, non-null number. *)
Definition isNumber (v : Cty.Value) : bool :=
  match v with
  | Cty.NumberVal _ => true
  | _ => false
  end.

Definition numericKeys (path : Cty.Path) : Prop :=
  forall key, In (Cty.IndexStep key) path -> isNumber key = true.

(** How one step is written, given whether it is the first step. *)
Definition renderStep (first : bool) (step : Cty.PathStep) : string :=
  match step with
  | Cty.GetAttrStep n => if first then n else "." ++ n
  | Cty.IndexStep (Cty.NumberVal f) => "[" ++ Strconv.Itoa (fst (Cty.Int64 f)) ++ "]"
  | Cty.IndexStep _ => ""
  end.

Fixpoint renderSteps (first : bool) (path : Cty.Path) : string :=
  match path with
  | [] => ""
  | step :: rest => renderStep first step ++ renderSteps false rest
  end.

(** ** The engine boundary *)

(** The values terraform and the terraspec library hand back are opaque
    to the orchestrator, except that a parsed spec shows its mocks. *)
Class Engine := {
  ContextOpts : Type;
  TfContext : Type;
  Schemas : Type;
  Spec : Type;
  Plan : Type;
  Mock : Type;
  Mocks : Spec -> list Mock
}.

Section Programs.
Context `{Engine}.

(** The calls the orchestrator makes across the boundary, indexed by
    what they return.  [Refresh] also returns a state, which the
    orchestrator drops.  [RenderPlan] returns what it wrote to the
    buffer it was given.  [TerraspecNewContext] is the older entry
    point that reads the configuration and creates the context at
    once. *)
Inductive Call : Type -> Type :=
| TerraspecNewContextOptions (d varFile : string) : Call (ContextOpts * Diagnostics)
| TerraformNewContext (opts : ContextOpts) : Call (TfContext * Diagnostics)
| TerraspecNewContext (d varFile : string) : Call (TfContext * Diagnostics)
| CtxSchemas (ctx : TfContext) : Call Schemas
| ReadSpec (filename : string) (schemas : Schemas) : Call (Spec * Diagnostics)
| InjectMockedData (opts : ContextOpts) (mocks : list Mock) : Call Diagnostics
| Refresh (ctx : TfContext) : Call Diagnostics
| CtxPlan (ctx : TfContext) : Call (Plan * Diagnostics)
| RenderPlan (p : Plan) (schemas : Schemas) : Call string
| Validate (spec : Spec) (p : Plan) : Call (Diagnostics * option string).

(** A goroutine's code: calls across the boundary, sends on the
    report channel, and [log.Fatal]. *)
Inductive Prog (A : Type) : Type :=
| Ret (a : A)
| Do {X : Type} (c : Call X) (k : X -> Prog A)
| Send (r : testReport) (k : Prog A)
| LogFatal (err : string).
Global Arguments Ret {A} a.
Global Arguments Do {A X} c k.
Global Arguments Send {A} r k.
Global Arguments LogFatal {A} err.

Fixpoint bind {A B : Type} (p : Prog A) (f : A -> Prog B) : Prog B :=
  match p with
  | Ret a => f a
  | Do c k => Do c (fun x => bind (k x) f)
  | Send r k => Send r (bind k f)
  | LogFatal err => LogFatal err
  end.

Definition call {X : Type} (c : Call X) : Prog X := Do c Ret.

(** [results <- r] *)
Definition send (r : testReport) : Prog unit := Send r (Ret tt).

End Programs.

Global Instance Prog_bind `{Engine} : MBind Prog := fun A B f p => bind p f.
Global Instance Prog_ret `{Engine} : MRet Prog := fun A a => Ret a.

Section Pipeline.
Context `{Engine}.

Definition fatalReport (name : string) (err : Diagnostics) (plan : string)
  : Prog bool :=
  if HasErrors err then
    _ ← send {| rname := name; report := err; plan := plan |};
    Ret true
  else Ret false.

(** The tail of [runTestCase] from the refresh on, shared by the two
    branches of the test on the mocks.  The calls that only redirect the
    output of the logger are left out. *)
Definition refreshPlanValidate (displayPlan : bool) (tc : testCase)
    (tfCtx : TfContext) (spec : Spec) (planOutput : string) : Prog unit :=
  ctxDiags ← call (Refresh tfCtx);
  stop ← fatalReport (name tc) ctxDiags planOutput;
  if (stop : bool) then Ret tt else
  '(plan, ctxDiags) ← call (CtxPlan tfCtx);
  stop ← fatalReport (name tc) ctxDiags planOutput;
  if (stop : bool) then Ret tt else
  planOutput ←
    (if displayPlan then
       schemas ← call (CtxSchemas tfCtx);
       call (RenderPlan plan schemas)
     else Ret planOutput);
  '(ctxDiags, err) ← call (Validate spec plan);
  match err with
  | Some e => LogFatal e
  | None => send {| rname := name tc; report := ctxDiags; plan := planOutput |}
  end.

Definition runTestCase (displayPlan : bool) (tc : testCase) : Prog unit :=
  let planOutput := "" in
  '(tfOptions, ctxDiags) ← call (TerraspecNewContextOptions "." (variableFile tc));
  stop ← fatalReport (name tc) ctxDiags planOutput;
  if (stop : bool) then Ret tt else
  '(tfCtx, ctxDiags) ← call (TerraformNewContext tfOptions);
  stop ← fatalReport (name tc) ctxDiags planOutput;
  if (stop : bool) then Ret tt else
  schemas ← call (CtxSchemas tfCtx);
  '(spec, ctxDiags) ← call (ReadSpec (specFile tc) schemas);
  stop ← fatalReport (name tc) ctxDiags planOutput;
  if (stop : bool) then Ret tt else
  if (0 <? length (Mocks spec))%nat then
    ctxDiags ← call (InjectMockedData tfOptions (Mocks spec));
    stop ← fatalReport (name tc) ctxDiags planOutput;
    if (stop : bool) then Ret tt else
    refreshPlanValidate displayPlan tc tfCtx spec planOutput
  else
    refreshPlanValidate displayPlan tc tfCtx spec planOutput.

End Pipeline.

(** The older pipeline of [main.go]. *)
Module MainGo.
Section Pipeline.
Context `{Engine}.

Definition runTestCase (displayPlan : bool) (tc : testCase) : Prog unit :=
  let planOutput := "" in
  '(tfCtx, ctxDiags) ← call (TerraspecNewContext "." (variableFile tc));
  stop ← fatalReport (name tc) ctxDiags planOutput;
  if (stop : bool) then Ret tt else
  '(plan, ctxDiags) ← call (CtxPlan tfCtx);
  stop ← fatalReport (name tc) ctxDiags planOutput;
  if (stop : bool) then Ret tt else
  planOutput ←
    (if displayPlan then
       schemas ← call (CtxSchemas tfCtx);
       call (RenderPlan plan schemas)
     else Ret planOutput);
  schemas ← call (CtxSchemas tfCtx);
  '(spec, ctxDiags) ← call (ReadSpec (specFile tc) schemas);
  stop ← fatalReport (name tc) ctxDiags planOutput;
  if (stop : bool) then Ret tt else
  '(ctxDiags, err) ← call (Validate spec plan);
  match err with
  | Some e => LogFatal e
  | None => send {| rname := name tc; report := ctxDiags; plan := planOutput |}
  end.

End Pipeline.
End MainGo.

(** ** Sequential semantics of a goroutine *)

Section Events.
Context `{Engine}.

(** What a goroutine did: a call with what it returned, or a report
    sent on the channel. *)
Inductive Event :=
| EvNewContextOptions (d varFile : string) (opts : ContextOpts) (diags : Diagnostics)
| EvNewContext (opts : ContextOpts) (ctx : TfContext) (diags : Diagnostics)
| EvTerraspecNewContext (d varFile : string) (ctx : TfContext) (diags : Diagnostics)
| EvSchemas (ctx : TfContext) (schemas : Schemas)
| EvReadSpec (filename : string) (schemas : Schemas) (spec : Spec) (diags : Diagnostics)
| EvInject (opts : ContextOpts) (mocks : list Mock) (diags : Diagnostics)
| EvRefresh (ctx : TfContext) (diags : Diagnostics)
| EvPlan (ctx : TfContext) (p : Plan) (diags : Diagnostics)
| EvRenderPlan (p : Plan) (schemas : Schemas) (out : string)
| EvValidate (spec : Spec) (p : Plan) (diags : Diagnostics) (err : option string)
| EvSend (r : testReport).

Definition eventOf {X : Type} (c : Call X) : X -> Event :=
  match c in Call X return X -> Event with
  | TerraspecNewContextOptions d v => fun x => EvNewContextOptions d v (fst x) (snd x)
  | TerraformNewContext o => fun x => EvNewContext o (fst x) (snd x)
  | TerraspecNewContext d v => fun x => EvTerraspecNewContext d v (fst x) (snd x)
  | CtxSchemas c => fun x => EvSchemas c x
  | ReadSpec f sch => fun x => EvReadSpec f sch (fst x) (snd x)
  | InjectMockedData o m => fun x => EvInject o m x
  | Refresh c => fun x => EvRefresh c x
  | CtxPlan c => fun x => EvPlan c (fst x) (snd x)
  | RenderPlan p sch => fun x => EvRenderPlan p sch x
  | Validate sp p => fun x => EvValidate sp p (fst x) (snd x)
  end.

(** The stages of the per-case pipeline. *)
Inductive Stage :=
| ConfigParsed | ContextCreated | SpecParsed | MockInjected
| Refreshed | Planned | Validated.

(** The stage an event belongs to, with the diagnostics the stage
    gave. *)
Definition stageResult (ev : Event) : option (Stage * Diagnostics) :=
  match ev with
  | EvNewContextOptions _ _ _ d => Some (ConfigParsed, d)
  | EvNewContext _ _ d => Some (ContextCreated, d)
  | EvTerraspecNewContext _ _ _ d => Some (ConfigParsed, d)
  | EvReadSpec _ _ _ d => Some (SpecParsed, d)
  | EvInject _ _ d => Some (MockInjected, d)
  | EvRefresh _ d => Some (Refreshed, d)
  | EvPlan _ _ d => Some (Planned, d)
  | EvValidate _ _ d _ => Some (Validated, d)
  | EvSchemas _ _ | EvRenderPlan _ _ _ | EvSend _ => None
  end.

Definition stageOf (ev : Event) : option Stage := fst <$> stageResult ev.

Definition stageResults (tr : list Event) : list (Stage * Diagnostics) :=
  omap stageResult tr.

Definition stages (tr : list Event) : list Stage := omap stageOf tr.

Definition sendOf (ev : Event) : option testReport :=
  match ev with
  | EvSend r => Some r
  | _ => None
  end.

(** The reports sent, in order. *)
Definition sends (tr : list Event) : list testReport := omap sendOf tr.

(** The error a validation returned, if the event is one that did. *)
Definition validateError (ev : Event) : option string :=
  match ev with
  | EvValidate _ _ _ err => err
  | _ => None
  end.

(** The context a refresh or a plan works on. *)
Definition contextOf (ev : Event) : option TfContext :=
  match ev with
  | EvRefresh ctx _ | EvPlan ctx _ _ => Some ctx
  | _ => None
  end.

(** The order of the stages in the mock-aware pipeline, with and
    without mocks, and in the older pipeline. *)
Definition pipelineOrder : list Stage :=
  [ConfigParsed; ContextCreated; SpecParsed; MockInjected; Refreshed; Planned; Validated].

Definition pipelineOrderNoMocks : list Stage :=
  [ConfigParsed; ContextCreated; SpecParsed; Refreshed; Planned; Validated].

Definition olderOrder : list Stage :=
  [ConfigParsed; Planned; SpecParsed; Validated].

(** Every occurrence of [b] comes after an occurrence of [a]. *)
Definition onlyAfter (a b : Stage) (st : list Stage) : Prop :=
  forall j, st !! j = Some b -> exists i, (i < j)%nat /\ st !! i = Some a.

(** [path p evs q]: the code [p] can do the events [evs], whatever the
    calls return, and then has the code [q] left. *)
Fixpoint path (p : Prog unit) (evs : list Event) (q : Prog unit) {struct evs}
  : Prop :=
  match evs with
  | [] => p = q
  | ev :: rest =>
      match p with
      | Do c k => exists x, ev = eventOf c x /\ path (k x) rest q
      | Send r k => ev = EvSend r /\ path k rest q
      | Ret _ | LogFatal _ => False
      end
  end.

Definition hasReturned (p : Prog unit) : bool :=
  match p with
  | Ret _ => true
  | _ => false
  end.

(** The error a goroutine is about to hand to [log.Fatal]. *)
Definition fatalOf (p : Prog unit) : option string :=
  match p with
  | LogFatal err => Some err
  | _ => None
  end.

Definition validateErrors (evs : list Event) : list string :=
  omap validateError evs.

End Events.

Section Semantics.
Context `{Engine} {W : Type}.

(** The engine and the world behind it: each call returns a result and
    leaves the world in a new state. *)
Definition Handler := forall X, Call X -> W -> X * W.

Variable h : Handler.

Record Result (A : Type) := {
  trace : list Event;
  outcome : Run A;
  final : W
}.
Global Arguments trace {A} _.
Global Arguments outcome {A} _.
Global Arguments final {A} _.

(** The result of a run that starts with the event [ev]. *)
Definition after {A : Type} (ev : Event) (r : Result A) : Result A :=
  {| trace := ev :: trace r; outcome := outcome r; final := final r |}.

Fixpoint run {A : Type} (p : Prog A) (w : W) : Result A :=
  match p with
  | Ret a => {| trace := []; outcome := Returns a; final := w |}
  | Do c k =>
      let '(x, w1) := h _ c w in
      after (eventOf c x) (run (k x) w1)
  | Send rep k => after (EvSend rep) (run k w)
  | LogFatal err =>
      {| trace := []; outcome := Dies (FatalError err); final := w |}
  end.

End Semantics.

(** ** The process: goroutines, report channel, wait group *)

Section Process.
Context `{Engine} {W : Type}.
Variable h : @Handler _ W.

(** A goroutine started by [main]: the rest of its [runTestCase], or
    finished once it has called [wg.Done]. *)
Inductive Goroutine :=
| Running (p : Prog unit)
| Finished.

(** [main] is collecting reports, or the process has ended: by
    [os.Exit] at the end of [main], by [log.Fatal], or by the panic of
    a send on a closed channel. *)
Inductive Status :=
| Collecting
| Exited (code : Z)
| Aborted (cause : Fatal)
| Panicked.

(** [received] is what [main] has taken from the channel and printed,
    [exitCode] its variable of that name, [wg] the counter of the wait
    group, [closed] whether the channel has been closed.  [log] keeps,
    for the proofs, what each goroutine did. *)
Record Proc := {
  world : W;
  tasks : list Goroutine;
  wg : nat;
  closed : bool;
  exitCode : Z;
  received : list testReport;
  log : list (nat * Event);
  status : Status
}.

Inductive Label :=
| LCall (i : nat)
| LSend (i : nat) (r : testReport)
| LFatal (i : nat) (err : string)
| LDone (i : nat)
| LClose
| LExit
| LPanic (i : nat).

(** One step of the process.  The channel is unbuffered: a send and
    the receive of [main]'s loop happen together, and the loop body
    runs before [main] receives again.  Of the loop body only the update
    of [exitCode] is kept; what it prints is the list [received]. *)
Inductive step : Proc -> Label -> Proc -> Prop :=
| step_call s i X (c : Call X) k x w1 :
    status s = Collecting ->
    tasks s !! i = Some (Running (Do c k)) ->
    h X c (world s) = (x, w1) ->
    step s (LCall i)
      {| world := w1; tasks := <[i := Running (k x)]> (tasks s);
         wg := wg s; closed := closed s; exitCode := exitCode s;
         received := received s;
         log := log s ++ [(i, eventOf c x)]; status := status s |}
| step_send s i r k :
    status s = Collecting ->
    closed s = false ->
    tasks s !! i = Some (Running (Send r k)) ->
    step s (LSend i r)
      {| world := world s; tasks := <[i := Running k]> (tasks s);
         wg := wg s; closed := closed s;
         exitCode := if HasErrors (report r) then 1 else exitCode s;
         received := received s ++ [r];
         log := log s ++ [(i, EvSend r)]; status := status s |}
| step_send_closed s i r k :
    status s = Collecting ->
    closed s = true ->
    tasks s !! i = Some (Running (Send r k)) ->
    step s (LPanic i)
      {| world := world s; tasks := tasks s; wg := wg s; closed := closed s;
         exitCode := exitCode s; received := received s;
         log := log s; status := Panicked |}
| step_fatal s i err :
    status s = Collecting ->
    tasks s !! i = Some (Running (LogFatal err)) ->
    step s (LFatal i err)
      {| world := world s; tasks := tasks s; wg := wg s; closed := closed s;
         exitCode := exitCode s; received := received s;
         log := log s; status := Aborted (FatalError err) |}
| step_done s i :
    status s = Collecting ->
    tasks s !! i = Some (Running (Ret tt)) ->
    step s (LDone i)
      {| world := world s; tasks := <[i := Finished]> (tasks s);
         wg := pred (wg s); closed := closed s; exitCode := exitCode s;
         received := received s; log := log s; status := status s |}
| step_close s :
    status s = Collecting ->
    wg s = 0%nat ->
    closed s = false ->
    step s LClose
      {| world := world s; tasks := tasks s; wg := wg s; closed := true;
         exitCode := exitCode s; received := received s;
         log := log s; status := status s |}
| step_exit s :
    status s = Collecting ->
    closed s = true ->
    step s LExit
      {| world := world s; tasks := tasks s; wg := wg s; closed := closed s;
         exitCode := exitCode s; received := received s;
         log := log s; status := Exited (exitCode s) |}.

(** Executions: the labels are those of the steps taken, in order. *)
Inductive exec (s0 : Proc) : list Label -> Proc -> Prop :=
| exec_nil : exec s0 [] s0
| exec_snoc ls s l s1 : exec s0 ls s -> step s l s1 -> exec s0 (ls ++ [l]) s1.

(** [main] up to its loop: discovery, then one goroutine per test
    case, each counted in the wait group before it starts.  A goroutine
    started early can make calls but cannot get past its send before
    [main] receives, so the state from which the steps are taken is the
    one in which all goroutines have been started. *)
Definition spawn (displayPlan : bool) (testCases : list testCase) (w : W) : Proc :=
  {| world := w;
     tasks := (fun tc => Running (runTestCase displayPlan tc)) <$> testCases;
     wg := length testCases; closed := false; exitCode := 0;
     received := []; log := []; status := Collecting |}.

Definition aborted (cause : Fatal) (w : W) : Proc :=
  {| world := w; tasks := []; wg := 0; closed := false; exitCode := 0;
     received := []; log := []; status := Aborted cause |}.

Definition main (fs : FileSystem) (specDir : string) (displayPlan : bool) (w : W)
  : Proc :=
  match findCases fs specDir with
  | Dies cause => aborted cause w
  | Returns testCases =>
      if (length testCases =? 0)%nat then aborted FatalNoTestCase w
      else spawn displayPlan testCases w
  end.

(** What the scheduler picks next: goroutine [i], the goroutine that
    waits on the wait group and closes the channel, or [main] finding
    the channel closed. *)
Inductive Choice :=
| Go (i : nat)
| CloseChannel
| ExitMain.

(** The step a choice leads to, if it can be taken. *)
Definition fire (ch : Choice) (s : Proc) : option (Label * Proc) :=
  match status s with
  | Collecting =>
      match ch with
      | Go i =>
          match tasks s !! i with
          | Some (Running (Do c k)) =>
              let '(x, w1) := h _ c (world s) in
              Some (LCall i,
                    {| world := w1; tasks := <[i := Running (k x)]> (tasks s);
                       wg := wg s; closed := closed s; exitCode := exitCode s;
                       received := received s;
                       log := log s ++ [(i, eventOf c x)]; status := status s |})
          | Some (Running (Send r k)) =>
              if closed s then
                Some (LPanic i,
                      {| world := world s; tasks := tasks s; wg := wg s;
                         closed := closed s; exitCode := exitCode s;
                         received := received s; log := log s;
                         status := Panicked |})
              else
                Some (LSend i r,
                      {| world := world s; tasks := <[i := Running k]> (tasks s);
                         wg := wg s; closed := closed s;
                         exitCode := if HasErrors (report r) then 1 else exitCode s;
                         received := received s ++ [r];
                         log := log s ++ [(i, EvSend r)]; status := status s |})
          | Some (Running (LogFatal err)) =>
              Some (LFatal i err,
                    {| world := world s; tasks := tasks s; wg := wg s;
                       closed := closed s; exitCode := exitCode s;
                       received := received s; log := log s;
                       status := Aborted (FatalError err) |})
          | Some (Running (Ret _)) =>
              Some (LDone i,
                    {| world := world s; tasks := <[i := Finished]> (tasks s);
                       wg := pred (wg s); closed := closed s;
                       exitCode := exitCode s; received := received s;
                       log := log s; status := status s |})
          | Some Finished | None => None
          end
      | CloseChannel =>
          if (wg s =? 0)%nat && negb (closed s) then
            Some (LClose,
                  {| world := world s; tasks := tasks s; wg := wg s; closed := true;
                     exitCode := exitCode s; received := received s;
                     log := log s; status := status s |})
          else None
      | ExitMain =>
          if closed s then
            Some (LExit,
                  {| world := world s; tasks := tasks s; wg := wg s;
                     closed := closed s; exitCode := exitCode s;
                     received := received s; log := log s;
                     status := Exited (exitCode s) |})
          else None
      end
  | _ => None
  end.

(** The run a schedule leads to, if each of its choices can be
    taken. *)
Fixpoint fires (sched : list Choice) (s : Proc) : option (list Label * Proc) :=
  match sched with
  | [] => Some ([], s)
  | ch :: rest =>
      match fire ch s with
      | Some (l, s1) =>
          match fires rest s1 with
          | Some (ls, s2) => Some (l :: ls, s2)
          | None => None
          end
      | None => None
      end
  end.


(** The reports goroutine [i] has sent, and the goroutines that sent,
    in the order of the sends. *)
Definition sentBy (i : nat) (lg : list (nat * Event)) : list testReport :=
  omap (fun e => if (fst e =? i)%nat then sendOf (snd e) else None) lg.

Definition senders (lg : list (nat * Event)) : list nat :=
  omap (fun e => match sendOf (snd e) with Some _ => Some (fst e) | None => None end) lg.

(** What goroutine [i] did. *)
Definition eventsOf (i : nat) (lg : list (nat * Event)) : list Event :=
  omap (fun e => if (fst e =? i)%nat then Some (snd e) else None) lg.

Definition isRunning (g : Goroutine) : bool :=
  match g with
  | Running _ => true
  | Finished => false
  end.

(** The code a goroutine has left; a finished one has returned from
    [runTestCase]. *)
Definition progOf (g : Goroutine) : Prog unit :=
  match g with
  | Running p => p
  | Finished => Ret tt
  end.

Definition anyError (reports : list testReport) : bool :=
  existsb (fun r => HasErrors (report r)) reports.

(** What holds of every state of a run over the cases [tcs]. *)
Record Inv (displayPlan : bool) (tcs : list testCase) (s : Proc) : Prop := {
  inv_len : length (tasks s) = length tcs;
  inv_task : forall i g, tasks s !! i = Some g ->
               exists tc, tcs !! i = Some tc
                 /\ path (runTestCase displayPlan tc) (eventsOf i (log s)) (progOf g);
  inv_wg : wg s = length (filter isRunning (tasks s));
  inv_closed : closed s = true -> wg s = 0%nat;
  inv_code : exitCode s = if anyError (received s) then 1 else 0;
  inv_recv : received s = omap (fun e => sendOf (snd e)) (log s);
  inv_nodup : NoDup (senders (log s));
  inv_bound : forall i ev, In (i, ev) (log s) -> (i < length tcs)%nat;
  inv_status : match status s with
               | Collecting => True
               | Exited code => code = exitCode s /\ closed s = true
               | Aborted (FatalError err) =>
                   exists i, tasks s !! i = Some (Running (LogFatal err))
               | Aborted _ => False
               | Panicked => False
               end
}.

End Process.

(** ** Scenarios used to exercise the definitions *)

Definition file (n : string) : FileInfo := {| Name := n; IsDir := false |}.
Definition folder (n : string) : FileInfo := {| Name := n; IsDir := true |}.

(** A spec directory with its own spec file, a scenario with two spec
    files and two variables files, a scenario without variables, and a
    directory without any spec file. *)
Definition demoFS : FileSystem := fun d =>
  if (d =? "spec")%string then
    Some [file "root.tfspec"; folder "two"; folder "plain"; folder "none"; file "README.md"]
  else if (d =? "spec/two")%string then
    Some [file "z.tfspec"; file "b.tfvars"; file "a.tfspec"; file "c.tfvars";
          folder "x.tfspec"]
  else if (d =? "spec/plain")%string then
    Some [file "case.tfspec"]
  else if (d =? "spec/none")%string then
    Some [file "main.tf"]
  else None.

(** A scripted engine: options and contexts are numbered, a spec is
    the list of its mocks, a plan is its text; the world counts the
    calls made. *)
Definition demoEngine : Engine := {|
  ContextOpts := nat;
  TfContext := nat;
  Schemas := unit;
  Spec := list string;
  Plan := string;
  Mock := string;
  Mocks := fun spec => spec
|}.

Record Script := {
  optionsDiags : Diagnostics;
  contextDiags : Diagnostics;
  specMocks : list string;
  specDiags : Diagnostics;
  injectDiags : Diagnostics;
  refreshDiags : Diagnostics;
  planDiags : Diagnostics;
  validateDiags : Diagnostics;
  validateErr : option string
}.

Definition demoHandler (sc : Script) : @Handler demoEngine nat :=
  fun X c =>
    match c in Call X return nat -> X * nat with
    | TerraspecNewContextOptions _ _ => fun w => ((7%nat, optionsDiags sc), S w)
    | TerraformNewContext o => fun w => ((S o, contextDiags sc), S w)
    | TerraspecNewContext _ _ => fun w => ((8%nat, contextDiags sc), S w)
    | CtxSchemas _ => fun w => (tt, S w)
    | ReadSpec _ _ => fun w => ((specMocks sc, specDiags sc), S w)
    | InjectMockedData _ _ => fun w => (injectDiags sc, S w)
    | Refresh _ => fun w => (refreshDiags sc, S w)
    | CtxPlan _ => fun w => (("the plan", planDiags sc), S w)
    | RenderPlan p _ => fun w => (p, S w)
    | Validate _ _ => fun w => ((validateDiags sc, validateErr sc), S w)
    end.

Definition errorDiag (detail : string) : Diagnostic :=
  {| severity := Error; Summary := "failed"; Detail := detail; Attribute := None |}.

Definition warningDiag (detail : string) : Diagnostic :=
  {| severity := Warning; Summary := "warning"; Detail := detail; Attribute := None |}.

Definition infoDiag (detail : string) : Diagnostic :=
  {| severity := Info; Summary := ""; Detail := detail;
     Attribute := Some [Cty.GetAttrStep "ami"] |}.

(** Everything succeeds, the spec has one mock, one assertion matches. *)
Definition passing : Script := {|
  optionsDiags := [];
  contextDiags := [warningDiag "deprecated"];
  specMocks := ["data.aws_ami.ubuntu"];
  specDiags := [];
  injectDiags := [];
  refreshDiags := [];
  planDiags := [];
  validateDiags := [infoDiag "ami-123"];
  validateErr := None
|}.

(** The plan fails. *)
Definition planFails : Script := {|
  optionsDiags := [];
  contextDiags := [];
  specMocks := [];
  specDiags := [];
  injectDiags := [];
  refreshDiags := [];
  planDiags := [errorDiag "cycle"];
  validateDiags := [];
  validateErr := None
|}.

(** Validation itself returns an error. *)
Definition validateBreaks : Script := {|
  optionsDiags := [];
  contextDiags := [];
  specMocks := [];
  specDiags := [];
  injectDiags := [];
  refreshDiags := [];
  planDiags := [];
  validateDiags := [];
  validateErr := Some "cannot decode plan"
|}.

Definition demoCase : testCase :=
  {| dir := "spec/plain"; variableFile := ""; specFile := "spec/plain/case.tfspec" |}.

(** Two scenarios: [bad] has a variables file, and the plan of a case
    with variables fails; [good] has none and passes. *)
Definition pairFS : FileSystem := fun d =>
  if (d =? "suite")%string then Some [folder "good"; folder "bad"]
  else if (d =? "suite/bad")%string then Some [file "x.tfspec"; file "x.tfvars"]
  else if (d =? "suite/good")%string then Some [file "y.tfspec"]
  else None.

Definition pairHandler : @Handler demoEngine nat :=
  fun X c =>
    match c in Call X return nat -> X * nat with
    | TerraspecNewContextOptions _ v =>
        fun w => ((if (v =? "")%string then 7%nat else 9%nat, []), S w)
    | TerraformNewContext o => fun w => ((S o, []), S w)
    | TerraspecNewContext _ v =>
        fun w => ((if (v =? "")%string then 8%nat else 10%nat, []), S w)
    | CtxSchemas _ => fun w => (tt, S w)
    | ReadSpec _ _ => fun w => (([], []), S w)
    | InjectMockedData _ _ => fun w => ([], S w)
    | Refresh _ => fun w => ([], S w)
    | CtxPlan ctx =>
        fun w => (("the plan", if (ctx =? 10)%nat then [errorDiag "cycle"] else []), S w)
    | RenderPlan p _ => fun w => (p, S w)
    | Validate _ _ => fun w => (([infoDiag "ami-123"], None), S w)
    end.

(** A schedule that alternates between the two goroutines for their
    first calls, lets the failing one report first, and ends the
    process. *)
Definition pairSchedule : list Choice :=
  [Go 0; Go 1; Go 1; Go 0; Go 0; Go 1; Go 0; Go 1; Go 0; Go 0;
   Go 0; Go 0; Go 1; Go 1; Go 1; Go 1; Go 1;
   CloseChannel; ExitMain]%nat.

(** A single scenario whose validation returns an error. *)
Definition soloFS : FileSystem := fun d =>
  if (d =? "solo")%string then Some [file "only.tfspec"] else None.

(** The two cases of [pairFS]. *)
Definition badCase : testCase :=
  {| dir := "suite/bad"; variableFile := "suite/bad/x.tfvars";
     specFile := "suite/bad/x.tfspec" |}.

Definition goodCase : testCase :=
  {| dir := "suite/good"; variableFile := ""; specFile := "suite/good/y.tfspec" |}.

(** ** What a goroutine's events show *)

Section EventViews.
Context `{Engine}.

(** The texts the plan was rendered to. *)
Definition rendered (evs : list Event) : list string :=
  omap (fun ev => match ev with EvRenderPlan _ _ out => Some out | _ => None end) evs.

(** The specs that were parsed. *)
Definition specsRead (evs : list Event) : list Spec :=
  omap (fun ev => match ev with EvReadSpec _ _ spec _ => Some spec | _ => None end) evs.

(** The lists of mocks that were injected. *)
Definition injected (evs : list Event) : list (list Mock) :=
  omap (fun ev => match ev with EvInject _ mocks _ => Some mocks | _ => None end) evs.

(** The code a run stops at: returned, or at the [log.Fatal] of an
    error. *)
Definition stoppedAt {A : Type} (o : Run A) : Prog unit :=
  match o with
  | Dies (FatalError err) => LogFatal err
  | _ => Ret tt
  end.

End EventViews.

(** In the older pipeline a spec that fails to parse is reported with
    the plan text. *)
Definition specFails : Script := {|
  optionsDiags := [];
  contextDiags := [];
  specMocks := [];
  specDiags := [errorDiag "unknown resource"];
  injectDiags := [];
  refreshDiags := [];
  planDiags := [];
  validateDiags := [];
  validateErr := None
|}.

(** ** Counting the steps of the process *)

Section StepCount.
Context `{Engine} {W : Type}.

(** The steps taken so far, counted off the state: one per log entry
    (a call or a send), one per finished goroutine, one for the close of
    the channel, one for the end of the process. *)
Definition stepsTaken (s : @Proc _ W) : nat :=
  (length (log s) + (length (tasks s) - wg s)
   + (if closed s then 1 else 0)
   + match status s with Collecting => 0 | _ => 1 end)%nat.

(** The name of the case goroutine [i] runs. *)
Definition caseName (tcs : list testCase) (i : nat) : string :=
  from_option name "" (tcs !! i).

End StepCount.

(** ** File names *)

(** What the entries of a real directory are called: a non-empty name
    without separator, other than ["."] and [".."]. *)
Definition validName (n : string) : bool :=
  let l := list_ascii_of_string n in
  negb (n =? "")%string
  && forallb (fun c => negb (Filepath.IsPathSeparator c)) l
  && negb (Filepath.is_dot l) && negb (Filepath.is_dotdot l).

(** A subdirectory of [rootDir] that holds a spec file. *)
Definition isCaseDir (fs : FileSystem) (rootDir : string) (fi : FileInfo) : bool :=
  IsDir fi && hasSpecFile fs (pathIn rootDir fi).

(** Two file systems hold the same entries in every directory, listed
    in whatever order, no two entries of a directory having the same
    name. *)
Definition sameEntries (fs1 fs2 : FileSystem) : Prop :=
  forall d,
    match fs1 d, fs2 d with
    | Some l1, Some l2 => l1 ≡ₚ l2 /\ NoDup (Name <$> l1)
    | None, None => True
    | _, _ => False
    end.

(** ** Console output: [printDiags] and the body of [main]'s loop *)

(** An index step whose key is the whole number [n]. *)
Definition listIndex (n : Z) : Cty.PathStep :=
  Cty.IndexStep (Cty.NumberVal (Cty.Finite n 0)).

Inductive Arg :=
| ArgString (s : string)
| ArgInt (n : Z).

(** The calls that write to the standard output.  The colour tags of a
    format are left as they are written in the source. *)
Inductive PrintCall :=
| FmtPrint (text : string)
| FmtPrintf (format : string) (args : list Arg)
| FmtPrintln (text : string)
| ColorPrintf (format : string) (args : list Arg).

(** The subject of a diagnostic that comes from a source file. *)
Record SourceRange := {
  Filename : string;
  StartLine : Z;
  StartColumn : Z
}.

Definition newline : string := String "010"%char "".

Section Printing.
(** What [printDiags] asks of a diagnostic beyond its severity,
    description and attribute path: whether it is one of the terraspec
    library's own diagnostics, and the subject of its source. *)
Variable isTerraspec : Diagnostic -> bool.
Variable Subject : Diagnostic -> option SourceRange.

Definition isInfo (diag : Diagnostic) : bool := Severity_eqb (severity diag) Info.

(** The body of the loop of [printDiags]: what it prints for one
    diagnostic, and whether it got to the end; it does not when
    [formatPath] panics. *)
Definition printDiag (diag : Diagnostic) : list PrintCall * bool :=
  if isTerraspec diag then
    let mark := FmtPrint (if isInfo diag then " ✔  " else " ❌  ") in
    let detail :=
      if isInfo diag
      then ColorPrintf ("= [green]%s" ++ newline) [ArgString (Detail diag)]
      else ColorPrintf (": [red]%s" ++ newline) [ArgString (Detail diag)] in
    match Attribute diag with
    | Some path =>
        match formatPath path with
        | Some text => ([mark; ColorPrintf "[bold]%s " [ArgString text]; detail], true)
        | None => ([mark], false)
        end
    | None => ([mark; detail], true)
    end
  else
    let subject :=
      match Subject diag with
      | Some subj =>
          [ColorPrintf "[bold]%s#%d,%d : "
             [ArgString (Filename subj); ArgInt (StartLine subj);
              ArgInt (StartColumn subj)]]
      | None => []
      end in
    let summary :=
      if negb (Summary diag =? "")%string
      then [ColorPrintf "[red]%s : " [ArgString (Summary diag)]]
      else [] in
    ((subject ++ summary
      ++ [ColorPrintf ("[red]%s" ++ newline) [ArgString (Detail diag)]])%list, true).

Fixpoint printDiags (ctxDiags : Diagnostics) : list PrintCall * bool :=
  match ctxDiags with
  | [] => ([], true)
  | diag :: rest =>
      let '(out, ok) := printDiag diag in
      if ok then
        let '(out1, ok1) := printDiags rest in ((out ++ out1)%list, ok1)
      else (out, false)
  end.

(** The body of the loop of [main] but for the update of [exitCode]. *)
Definition printReport (displayPlan : bool) (r : testReport) : list PrintCall * bool :=
  let header := FmtPrintf ("🏷  %s" ++ newline) [ArgString (rname r)] in
  let planText := if displayPlan then [FmtPrintln (plan r)] else [] in
  let '(out, ok) := printDiags (report r) in
  ((header :: planText ++ out)%list, ok).

(** A terraspec diagnostic can be printed when its attribute path, if
    it has one, has numbers for index keys. *)
Definition printable (diag : Diagnostic) : Prop :=
  isTerraspec diag = true ->
  forall path, Attribute diag = Some path -> numericKeys path.

End Printing.

(** The arguments of the calls that end a line. *)
Definition endsLine (format : string) : bool :=
  match last (list_ascii_of_string format) with
  | Some c => Ascii.eqb c "010"%char
  | None => false
  end.

Definition lineOf (c : PrintCall) : option (list Arg) :=
  match c with
  | FmtPrintf f args | ColorPrintf f args => if endsLine f then Some args else None
  | FmtPrintln text => Some [ArgString text]
  | FmtPrint _ => None
  end.

Definition linesOf (out : list PrintCall) : list (list Arg) := omap lineOf out.
(** ** More scenarios *)

(** [pairFS] with the entries of each directory listed the other way
    round. *)
Definition pairFSshuffled : FileSystem := fun d =>
  if (d =? "suite")%string then Some [folder "bad"; folder "good"]
  else if (d =? "suite/bad")%string then Some [file "x.tfvars"; file "x.tfspec"]
  else if (d =? "suite/good")%string then Some [file "y.tfspec"]
  else None.

(** Every diagnostic is one of the terraspec library's, none has a
    source subject. *)
Definition allTerraspec : Diagnostic -> bool := fun _ => true.
Definition noSubject : Diagnostic -> option SourceRange := fun _ => None.

(** A mismatch on the element of a map. *)
Definition mapKeyDiag : Diagnostic :=
  {| severity := Error; Summary := ""; Detail := "expected prod";
     Attribute := Some [Cty.GetAttrStep "tags"; Cty.IndexStep (Cty.StringVal "env")] |}.

Definition demoReport : testReport :=
  {| rname := "plain"; plan := "the plan"; report := [infoDiag "ami-123"] |}.

(** * Properties *)

Example Ext_tfspec : Filepath.Ext "spec/a/main.tfspec" = ".tfspec".
Proof. reflexivity. Qed.
Example Ext_hidden : Filepath.Ext ".tfspec" = ".tfspec".
Proof. reflexivity. Qed.
Example Ext_dir_dot : Filepath.Ext "a.b/c" = "".
Proof. reflexivity. Qed.
Example Join_plain : Filepath.Join "spec" "case1" = "spec/case1".
Proof. reflexivity. Qed.
Example Join_clean : Filepath.Join "./spec//" "../x" = "x".
Proof. reflexivity. Qed.
Example Join_up : Filepath.Join ".." "../x" = "../../x".
Proof. reflexivity. Qed.
Example Join_root : Filepath.Join "/" ".." = "/".
Proof. reflexivity. Qed.
Example Base_plain : Filepath.Base "spec/case1/" = "case1".
Proof. reflexivity. Qed.
Example Base_root : Filepath.Base "//" = "/".
Proof. reflexivity. Qed.

(** ** Strings *)

Lemma append_assoc (a b c : string) : (a ++ b) ++ c = a ++ (b ++ c).
Proof.
  induction a as [|ch a IH]; [reflexivity|].
  change (String ch ((a ++ b) ++ c) = String ch (a ++ (b ++ c))).
  now rewrite IH.
Qed.

Lemma append_empty_r (a : string) : a ++ "" = a.
Proof.
  induction a as [|ch a IH]; [reflexivity|].
  change (String ch (a ++ "") = String ch a). now rewrite IH.
Qed.

(** ** Attribute-path rendering *)

Example formatPath_single : formatPath [Cty.GetAttrStep "ami"] = Some "ami".
Proof. reflexivity. Qed.

Example formatPath_negative_fraction :
  formatPath [Cty.GetAttrStep "a"; Cty.IndexStep (Cty.NumberVal (Cty.Finite (-7) (-1)))]
  = Some "a[-3]".
Proof. reflexivity. Qed.

Example formatPath_string_key :
  formatPath [Cty.GetAttrStep "tags"; Cty.IndexStep (Cty.StringVal "env")] = None.
Proof. reflexivity. Qed.

Lemma numericKeys_cons step path :
  numericKeys (step :: path) -> numericKeys path.
Proof. intros H key Hin. apply H. now right. Qed.

Lemma numericKeys_app p q :
  numericKeys p -> numericKeys q -> numericKeys (p ++ q)%list.
Proof.
  intros Hp Hq key Hin. apply in_app_or in Hin as [Hin|Hin]; auto.
Qed.

Lemma formatPath_loop_render path : forall sb i,
  numericKeys path ->
  formatPath_loop sb i path = Some (sb ++ renderSteps (Nat.eqb i 0) path).
Proof.
  induction path as [|step rest IH]; intros sb i Hnum; simpl.
  - now rewrite append_empty_r.
  - destruct step as [n|key].
    + rewrite IH by (eapply numericKeys_cons; eauto). simpl.
      destruct i; simpl; now rewrite !append_assoc.
    + assert (Hk : isNumber key = true) by (apply Hnum; now left).
      destruct key; try discriminate. simpl.
      destruct (Cty.Int64 f) as [val acc] eqn:E.
      rewrite IH by (eapply numericKeys_cons; eauto). simpl.
      now rewrite !append_assoc.
Qed.

Lemma formatPath_loop_app p : forall q sb i s,
  formatPath_loop sb i p = Some s ->
  formatPath_loop sb i (p ++ q)%list = formatPath_loop s (i + length p) q.
Proof.
  induction p as [|step rest IH]; intros q sb i s H; simpl in *.
  - inversion H; subst. now rewrite Nat.add_0_r.
  - destruct step as [n|key].
    + erewrite IH by eauto. f_equal. lia.
    + destruct (Cty.AsBigFloat key); [|discriminate].
      destruct (Cty.Int64 b). erewrite IH by eauto. f_equal. lia.
Qed.


(** C7. [formatPath] writes the steps from left to right: an attribute
    step is written as its name, preceded by a dot unless it is the
    first step, and an index step as [[n]] right after what precedes it;
    the path [rule], [2], [tags], [env] is rendered [rule[2].tags.env]. *)
Theorem formatPath_left_to_right :
  formatPath [Cty.GetAttrStep "rule"; Cty.IndexStep (Cty.NumberVal (Cty.Finite 2 0));
              Cty.GetAttrStep "tags"; Cty.GetAttrStep "env"]
  = Some "rule[2].tags.env"
  /\ formatPath [] = Some ""
  /\ (forall n, formatPath [Cty.GetAttrStep n] = Some n)
  /\ (forall p s n, p <> [] -> formatPath p = Some s ->
        formatPath (p ++ [Cty.GetAttrStep n])%list = Some (s ++ "." ++ n))
  /\ (forall p s f, formatPath p = Some s ->
        formatPath (p ++ [Cty.IndexStep (Cty.NumberVal f)])%list
        = Some (s ++ "[" ++ Strconv.Itoa (fst (Cty.Int64 f)) ++ "]")).
Proof.
  repeat split.
  - intros p s n Hne H. unfold formatPath in *.
    rewrite (formatPath_loop_app _ _ _ _ _ H). simpl.
    destruct p; [congruence|]. simpl. now rewrite append_assoc.
  - intros p s f H. unfold formatPath in *.
    rewrite (formatPath_loop_app _ _ _ _ _ H).
    cbn [formatPath_loop Cty.AsBigFloat].
    destruct (Cty.Int64 f) as [val acc]. reflexivity.
Qed.

Lemma formatPath_left_to_right_witness :
  formatPath ([Cty.GetAttrStep "rule"; Cty.IndexStep (Cty.NumberVal (Cty.Finite 2 0))]
              ++ [Cty.GetAttrStep "tags"])%list
  = Some ("rule[2]" ++ "." ++ "tags").
Proof.
  destruct formatPath_left_to_right as (_ & _ & _ & H & _).
  apply H; [discriminate | reflexivity].
Defined.

Lemma Int64_in_range m e :
  Cty.MinInt64 <= Cty.trunc m e <= Cty.MaxInt64 ->
  fst (Cty.Int64 (Cty.Finite m e)) = Cty.trunc m e.
Proof.
  intros [Hlo Hhi]. unfold Cty.Int64.
  destruct (Cty.trunc m e <? Cty.MinInt64) eqn:E1; [apply Z.ltb_lt in E1; lia|].
  destruct (Cty.MaxInt64 <? Cty.trunc m e) eqn:E2; [apply Z.ltb_lt in E2; lia|].
  destruct (Cty.is_integer m e); [reflexivity|].
  destruct (m <? 0); reflexivity.
Qed.


(** ** Paths *)

Lemma Clean_nonempty path : Filepath.Clean path <> "".
Proof.
  unfold Filepath.Clean.
  destruct (list_ascii_of_string path) as [|c p]; [discriminate|].
  destruct (Filepath.IsPathSeparator c); [discriminate|].
  destruct (Filepath.join_sep _); discriminate.
Qed.

Lemma Join_nonempty a b : a <> "" -> Filepath.Join a b <> "".
Proof.
  intros Ha. unfold Filepath.Join.
  destruct (String.eqb_spec a ""); [contradiction|]. apply Clean_nonempty.
Qed.

(** ** Directory listings *)

Lemma ReadDir_Some fs d fis :
  ReadDir fs d = Some fis ->
  d <> "" /\ exists raw, fs d = Some raw /\ fis = merge_sort by_name raw.
Proof.
  unfold ReadDir. destruct (String.eqb_spec d ""); [discriminate|].
  destruct (fs d) as [raw|]; [|discriminate].
  intros [= <-]. eauto.
Qed.

Lemma ReadDir_sorted fs d fis :
  ReadDir fs d = Some fis -> StronglySorted by_name fis.
Proof.
  intros (_ & raw & _ & ->)%ReadDir_Some. apply StronglySorted_merge_sort; apply _.
Qed.

Lemma ReadDir_Permutation fs d fis :
  ReadDir fs d = Some fis -> exists raw, fs d = Some raw /\ fis ≡ₚ raw.
Proof.
  intros (_ & raw & ? & ->)%ReadDir_Some. exists raw. split; [done|].
  apply merge_sort_Permutation.
Qed.

(** ** Discovery *)

Lemma lastMatch_snoc P fis fi :
  lastMatch P (fis ++ [fi])%list = if P fi then Some fi else lastMatch P fis.
Proof.
  unfold lastMatch. rewrite filter_app, filter_cons, filter_nil.
  destruct (P fi); simpl.
  - apply last_snoc.
  - now rewrite app_nil_r.
Qed.

Lemma lastMatch_Some P fis fi :
  lastMatch P fis = Some fi -> In fi fis /\ P fi = true.
Proof.
  unfold lastMatch. intros H. apply last_Some_elem_of in H.
  apply list_elem_of_filter in H as [HP Hin].
  split; [now apply list_elem_of_In | now apply Is_true_true].
Qed.

Lemma lastMatch_None P fis :
  lastMatch P fis = None <-> existsb P fis = false.
Proof.
  induction fis as [|fi fis IH] using rev_ind; [done|].
  rewrite lastMatch_snoc, existsb_app. simpl. rewrite orb_false_r.
  destruct (P fi); [|now rewrite orb_false_r].
  rewrite orb_true_r. split; discriminate.
Qed.

(** In a sorted listing the last match has the greatest name among the
    matches. *)
Lemma lastMatch_greatest P fis fi :
  StronglySorted by_name fis ->
  lastMatch P fis = Some fi ->
  forall fj, In fj fis -> P fj = true -> (Name fj ≤ Name fi)%string.
Proof.
  induction fis as [|x fis IH] using rev_ind; [discriminate|].
  intros Hs Hl fj Hin HP. rewrite lastMatch_snoc in Hl.
  apply in_app_or in Hin as [Hin|[<-|[]]].
  - destruct (P x) eqn:Px.
    + injection Hl as <-.
      apply (StronglySorted_app_1_elem_of by_name fis [x] fj x Hs);
        [now apply list_elem_of_In | apply list_elem_of_here].
    + apply IH; auto. eapply StronglySorted_app_1_l; eauto.
  - rewrite HP in Hl. injection Hl as <-. reflexivity.
Qed.

Lemma fold_findCase_body d fis : forall v s,
  fold_left (findCase_body d) fis (v, s)
  = (from_option (pathIn d) v (lastMatch isVarFile fis),
     from_option (pathIn d) s (lastMatch isSpecFile fis)).
Proof.
  induction fis as [|fi fis IH] using rev_ind; intros v s; [reflexivity|].
  rewrite fold_left_app, IH, !lastMatch_snoc. simpl.
  unfold findCase_body, isVarFile, isSpecFile, pathIn. simpl.
  destruct (IsDir fi); simpl; [reflexivity|].
  destruct (Filepath.Ext (Name fi) =? ".tfvars")%string;
    destruct (Filepath.Ext (Name fi) =? ".tfspec")%string; reflexivity.
Qed.

Lemma findCase_unfold fs d :
  findCase fs d =
  match ReadDir fs d with
  | None => None
  | Some fis =>
      match lastMatch isSpecFile fis with
      | Some fi => Some (caseOf d fis fi)
      | None => None
      end
  end.
Proof.
  unfold findCase. destruct (ReadDir fs d) as [fis|] eqn:E; [|reflexivity].
  apply ReadDir_Some in E as [Hd _].
  rewrite fold_findCase_body.
  destruct (lastMatch isSpecFile fis) as [fi|]; simpl; [|reflexivity].
  destruct (String.eqb_spec (pathIn d fi) "") as [Heq|_]; [|reflexivity].
  now apply Join_nonempty in Heq.
Qed.

Lemma findCase_dir fs d tc : findCase fs d = Some tc -> dir tc = d.
Proof.
  rewrite findCase_unfold. destruct (ReadDir fs d); [|discriminate].
  destruct (lastMatch _ _); [|discriminate]. now intros [= <-].
Qed.

Lemma hasSpecFile_true fs d :
  hasSpecFile fs d = true <-> exists tc, findCase fs d = Some tc.
Proof.
  rewrite findCase_unfold. unfold hasSpecFile.
  destruct (ReadDir fs d) as [fis|]; [|split; [discriminate | now intros [? ?]]].
  destruct (lastMatch isSpecFile fis) as [fi|] eqn:E.
  - split; [eauto|]. intros _.
    destruct (existsb isSpecFile fis) eqn:Ex; [reflexivity|].
    apply lastMatch_None in Ex. congruence.
  - apply lastMatch_None in E. rewrite E. split; [discriminate | now intros [? ?]].
Qed.

Lemma hasSpecFile_false fs d :
  hasSpecFile fs d = false <-> findCase fs d = None.
Proof.
  pose proof (hasSpecFile_true fs d) as [H1 H2].
  destruct (hasSpecFile fs d), (findCase fs d) as [tc|]; split; try done; intros _.
  - destruct (H1 eq_refl); discriminate.
  - discriminate H2. eauto.
Qed.

Lemma fold_findCases_body fs rootDir rootFis : forall acc,
  fold_left (findCases_body fs rootDir) rootFis acc
  = (acc ++ omap (findCase fs) (subdirs rootDir rootFis))%list.
Proof.
  unfold subdirs.
  induction rootFis as [|fi fis IH]; intros acc; simpl.
  - now rewrite app_nil_r.
  - rewrite IH, filter_cons. unfold findCases_body.
    destruct (IsDir fi); simpl; [|reflexivity].
    unfold pathIn at 2.
    destruct (findCase fs (Filepath.Join rootDir (Name fi))); simpl;
      [now rewrite <- app_assoc | reflexivity].
Qed.

Lemma dirs_of_found fs ds :
  map dir (omap (findCase fs) ds) = filter (hasSpecFile fs) ds.
Proof.
  induction ds as [|d ds IH]; [reflexivity|].
  rewrite filter_cons. simpl.
  destruct (findCase fs d) as [tc|] eqn:E; simpl.
  - assert (H : hasSpecFile fs d = true) by (apply hasSpecFile_true; eauto).
    rewrite <- IH, H. simpl. f_equal. eapply findCase_dir; eauto.
  - apply hasSpecFile_false in E. rewrite <- IH, E. reflexivity.
Qed.

Lemma found_are_cases fs ds :
  Forall (fun tc => findCase fs (dir tc) = Some tc) (omap (findCase fs) ds).
Proof.
  induction ds as [|d ds IH]; simpl; [constructor|].
  destruct (findCase fs d) as [tc|] eqn:E; simpl; [|assumption].
  constructor; [|assumption]. now rewrite (findCase_dir _ _ _ E).
Qed.

(** C4. When the spec directory can be listed, [findCases] returns, in
    listing order, one test case for each immediate subdirectory that
    directly contains a [.tfspec] file, then one for the spec directory
    itself if it directly contains one.  A directory gives a case exactly
    when it directly contains a [.tfspec] file, whether or not a
    [.tfvars] file is there; without one the variables file is empty. *)
Theorem findCases_one_per_spec_directory fs rootDir rootFis :
  ReadDir fs rootDir = Some rootFis ->
  (exists testCases,
     findCases fs rootDir = Returns testCases
     /\ map dir testCases
        = (filter (hasSpecFile fs) (subdirs rootDir rootFis)
           ++ (if hasSpecFile fs rootDir then [rootDir] else []))%list
     /\ Forall (fun tc => findCase fs (dir tc) = Some tc) testCases)
  /\ (forall d, hasSpecFile fs d = false <-> findCase fs d = None)
  /\ (forall d fis, ReadDir fs d = Some fis -> existsb isSpecFile fis = true ->
        exists tc, findCase fs d = Some tc /\ dir tc = d /\ specFile tc <> ""
                   /\ (existsb isVarFile fis = false -> variableFile tc = "")
                   /\ (existsb isVarFile fis = true -> variableFile tc <> "")).
Proof.
  intros Hroot. split; [|split].
  - unfold findCases. rewrite Hroot, fold_findCases_body. simpl.
    destruct (findCase fs rootDir) as [tc|] eqn:E.
    + assert (H : hasSpecFile fs rootDir = true) by (apply hasSpecFile_true; eauto).
      rewrite H. eexists. split; [reflexivity|]. split.
      * rewrite map_app, dirs_of_found. simpl. now rewrite (findCase_dir _ _ _ E).
      * apply Forall_app. split; [apply found_are_cases|].
        constructor; [|constructor]. now rewrite (findCase_dir _ _ _ E).
    + apply hasSpecFile_false in E. rewrite E. eexists. split; [reflexivity|]. split.
      * now rewrite dirs_of_found, app_nil_r.
      * apply found_are_cases.
  - apply hasSpecFile_false.
  - intros d fis Hd Hex. rewrite findCase_unfold, Hd.
    destruct (lastMatch isSpecFile fis) as [fi|] eqn:E;
      [|apply lastMatch_None in E; congruence].
    apply ReadDir_Some in Hd as [Hne _].
    eexists. split; [reflexivity|]. simpl. split; [reflexivity|].
    split; [now apply Join_nonempty|]. split.
    + intros Hv. apply lastMatch_None in Hv. now rewrite Hv.
    + intros Hv. destruct (lastMatch isVarFile fis) eqn:Ev.
      * simpl. now apply Join_nonempty.
      * apply lastMatch_None in Ev. congruence.
Qed.

Lemma findCases_one_per_spec_directory_witness :
  exists testCases,
    findCases demoFS "spec" = Returns testCases
    /\ map dir testCases = ["spec/plain"; "spec/two"; "spec"].
Proof.
  destruct (findCases_one_per_spec_directory demoFS "spec" _ eq_refl)
    as [(testCases & H1 & H2 & _) _].
  exists testCases. split; [exact H1 | exact H2].
Defined.

Example findCases_demo :
  findCases demoFS "spec"
  = Returns [ {| dir := "spec/plain"; variableFile := "";
                 specFile := "spec/plain/case.tfspec" |};
              {| dir := "spec/two"; variableFile := "spec/two/c.tfvars";
                 specFile := "spec/two/z.tfspec" |};
              {| dir := "spec"; variableFile := "";
                 specFile := "spec/root.tfspec" |} ].
Proof. reflexivity. Qed.

(** C9. When a directory holds several [.tfspec] files (or several
    [.tfvars] files), [findCase] still returns a test case, and its spec
    file (variables file) is the matching file whose name is greatest in
    the sorted listing, that is the last one; the others are dropped
    without any error. *)
Theorem findCase_last_file_wins fs d fis :
  ReadDir fs d = Some fis ->
  existsb isSpecFile fis = true ->
  exists tc fi,
    findCase fs d = Some tc
    /\ lastMatch isSpecFile fis = Some fi
    /\ specFile tc = pathIn d fi
    /\ (forall fj, In fj fis -> isSpecFile fj = true -> (Name fj ≤ Name fi)%string)
    /\ match lastMatch isVarFile fis with
       | Some fv =>
           variableFile tc = pathIn d fv
           /\ (forall fj, In fj fis -> isVarFile fj = true -> (Name fj ≤ Name fv)%string)
       | None => variableFile tc = ""
       end.
Proof.
  intros Hd Hex. rewrite findCase_unfold, Hd.
  pose proof (ReadDir_sorted _ _ _ Hd) as Hs.
  destruct (lastMatch isSpecFile fis) as [fi|] eqn:E;
    [|apply lastMatch_None in E; congruence].
  exists (caseOf d fis fi), fi. repeat split.
  - eapply lastMatch_greatest; eauto.
  - simpl. destruct (lastMatch isVarFile fis) as [fv|] eqn:Ev; [|reflexivity].
    split; [reflexivity|]. eapply lastMatch_greatest; eauto.
Qed.

Lemma findCase_last_file_wins_witness :
  exists tc,
    findCase demoFS "spec/two" = Some tc
    /\ specFile tc = "spec/two/z.tfspec"
    /\ variableFile tc = "spec/two/c.tfvars".
Proof.
  destruct (findCase_last_file_wins demoFS "spec/two" _ eq_refl eq_refl)
    as (tc & fi & H1 & H2 & H3 & _ & H4).
  exists tc. injection H2 as <-. split; [exact H1|]. split; [exact H3|].
  exact (proj1 H4).
Defined.

(** ** The per-case pipeline on the scripted engine *)

Section Demo.
Local Existing Instance demoEngine.

Example run_passing :
  trace (run (demoHandler passing) (runTestCase false demoCase) 0%nat)
  = [ EvNewContextOptions "." "" 7%nat [];
      EvNewContext 7%nat 8%nat [warningDiag "deprecated"];
      EvSchemas 8%nat tt;
      EvReadSpec "spec/plain/case.tfspec" tt ["data.aws_ami.ubuntu"] [];
      EvInject 7%nat ["data.aws_ami.ubuntu"] [];
      EvRefresh 8%nat [];
      EvPlan 8%nat "the plan" [];
      EvValidate ["data.aws_ami.ubuntu"] "the plan" [infoDiag "ami-123"] None;
      EvSend {| rname := "plain"; plan := ""; report := [infoDiag "ami-123"] |} ].
Proof. reflexivity. Qed.

Example run_planFails :
  trace (run (demoHandler planFails) (runTestCase true demoCase) 0%nat)
  = [ EvNewContextOptions "." "" 7%nat [];
      EvNewContext 7%nat 8%nat [];
      EvSchemas 8%nat tt;
      EvReadSpec "spec/plain/case.tfspec" tt [] [];
      EvRefresh 8%nat [];
      EvPlan 8%nat "the plan" [errorDiag "cycle"];
      EvSend {| rname := "plain"; plan := ""; report := [errorDiag "cycle"] |} ].
Proof. reflexivity. Qed.

Example run_older_passing :
  stages (trace (run (demoHandler passing) (MainGo.runTestCase true demoCase) 0%nat))
  = olderOrder.
Proof. reflexivity. Qed.

End Demo.

(** ** The per-case pipeline on any engine *)

(** Follows every path through a pipeline: each call returns some value,
    and each test of the code goes one way or the other. *)
Ltac run_cases h :=
  repeat (cbn -[after];
    match goal with
    | x : (_ * _)%type |- _ => destruct x
    | |- context [h ?X ?c ?w] => destruct (h X c w) as [? ?] eqn:?
    | |- context [HasErrors ?d] => destruct (HasErrors d) eqn:?
    | |- context [Mocks ?s] => destruct (Mocks s) eqn:?
    | |- context [if ?b then _ else _] => is_var b; destruct b
    | |- context [match ?e with Some _ => _ | None => _ end] => is_var e; destruct e
    end);
  cbn.

(** Settles a lookup in an explicit list by trying each position. *)
Ltac at_index i H :=
  repeat (destruct i as [|i]; [cbn in H | cbn in H; try discriminate H]);
  simplify_eq.

Lemma onlyAfter_prefix a b st order :
  st `prefix_of` order -> onlyAfter a b order -> onlyAfter a b st.
Proof.
  intros [k ->] Ho j Hj.
  destruct (Ho j) as (i & Hlt & Hi); [now apply lookup_app_l_Some|].
  exists i. split; [assumption|].
  rewrite lookup_app_l in Hi; [assumption|].
  apply lookup_lt_Some in Hj. lia.
Qed.

Lemma onlyAfter_pipelineOrder b :
  b = MockInjected \/ b = Refreshed \/ b = Planned ->
  onlyAfter SpecParsed b pipelineOrder /\ onlyAfter SpecParsed b pipelineOrderNoMocks.
Proof.
  intros Hb. split; intros j Hj; exists 2%nat;
    (split; [|reflexivity]);
    repeat (destruct j as [|j]; [destruct Hb as [ -> | [ -> | -> ] ]; discriminate|]); lia.
Qed.

(** C1, as the code has it.  In the mock-aware pipeline the stages run
    in the order: configuration parsed, context created, spec parsed,
    mocks injected (only when the spec has mocks), refreshed, planned,
    validated, stopping at the first stage that fails; the spec is parsed
    before the mocks are injected, before the refresh and before the
    plan.  Only the older pipeline parses the spec after the plan:
    configuration parsed, planned, spec parsed, validated. *)
Theorem runTestCase_stage_order `{Engine} {W : Type} (h : Handler) (w : W)
    (displayPlan : bool) (tc : testCase) :
  let st := stages (trace (run h (runTestCase displayPlan tc) w)) in
  (st `prefix_of` pipelineOrder \/ st `prefix_of` pipelineOrderNoMocks)
  /\ onlyAfter SpecParsed MockInjected st
  /\ onlyAfter SpecParsed Refreshed st
  /\ onlyAfter SpecParsed Planned st
  /\ stages (trace (run h (MainGo.runTestCase displayPlan tc) w)) `prefix_of` olderOrder.
Proof.
  intros st.
  assert (Hst : st `prefix_of` pipelineOrder \/ st `prefix_of` pipelineOrderNoMocks).
  { subst st. unfold runTestCase, refreshPlanValidate, fatalReport.
    run_cases h;
      first [ left; eexists; reflexivity | right; eexists; reflexivity ]. }
  split; [exact Hst|].
  repeat split.
  1-3: destruct Hst as [Hp|Hp];
       (eapply onlyAfter_prefix; [exact Hp|]); apply onlyAfter_pipelineOrder; auto.
  unfold MainGo.runTestCase, fatalReport.
  run_cases h; eexists; reflexivity.
Qed.

Section DemoOrder.
Local Existing Instance demoEngine.

(** C1, as stated, fails: on a case where every stage succeeds the
    pipeline parses the spec third, before the mocks are injected and
    long before the plan. *)
Lemma runTestCase_parses_spec_before_plan :
  stages (trace (run (demoHandler passing) (runTestCase false demoCase) 0%nat))
  = [ConfigParsed; ContextCreated; SpecParsed; MockInjected; Refreshed; Planned; Validated]
  /\ ~ onlyAfter Planned SpecParsed
        (stages (trace (run (demoHandler passing) (runTestCase false demoCase) 0%nat))).
Proof.
  split; [reflexivity|].
  intros Hc. destruct (Hc 2%nat eq_refl) as (i & Hlt & Hi).
  repeat (destruct i as [|i]; [discriminate|]). lia.
Qed.

End DemoOrder.

(** The report a stage that failed with diagnostics [d] gives: no plan
    text has been rendered yet at any of these stages. *)
Lemma fatalReport_true `{Engine} {W : Type} (h : Handler) (w : W) n d pl :
  HasErrors d = true ->
  run h (fatalReport n d pl) w
  = {| trace := [EvSend {| rname := n; plan := pl; report := d |}];
       outcome := Returns true; final := w |}.
Proof. intros Hd. unfold fatalReport. now rewrite Hd. Qed.

Lemma fatalReport_false `{Engine} {W : Type} (h : Handler) (w : W) n d pl :
  HasErrors d = false ->
  run h (fatalReport n d pl) w
  = {| trace := []; outcome := Returns false; final := w |}.
Proof. intros Hd. unfold fatalReport. now rewrite Hd. Qed.

(** A stage before validation whose diagnostics hold an error is the
    last stage of the run, and the run ends by sending one report with
    exactly these diagnostics. *)
Lemma failed_stage_ends_run `{Engine} {W : Type} (h : Handler) (w : W)
    (displayPlan : bool) (tc : testCase) :
  let r := run h (runTestCase displayPlan tc) w in
  forall i st d,
    stageResults (trace r) !! i = Some (st, d) ->
    st <> Validated ->
    HasErrors d = true ->
    let rep := {| rname := name tc; plan := ""; report := d |} in
    length (stageResults (trace r)) = S i
    /\ sends (trace r) = [rep]
    /\ last (trace r) = Some (EvSend rep)
    /\ outcome r = Returns tt.
Proof.
  unfold runTestCase, refreshPlanValidate, fatalReport.
  run_cases h; intros i st d' Hi Hne He;
    at_index i Hi; try congruence; repeat split; reflexivity.
Qed.

(** Each run of [runTestCase] either returns after sending exactly one
    report, its last action, under the name of the case, or is cut by
    [log.Fatal] right after a validation that returned an error, having
    sent nothing. *)
Lemma runTestCase_outcome `{Engine} {W : Type} (h : Handler) (w : W)
    (displayPlan : bool) (tc : testCase) :
  let r := run h (runTestCase displayPlan tc) w in
  (outcome r = Returns tt
   /\ exists rep, sends (trace r) = [rep] /\ rname rep = name tc
                  /\ last (trace r) = Some (EvSend rep))
  \/ (exists err sp p d,
        outcome r = Dies (FatalError err)
        /\ sends (trace r) = []
        /\ exists pre, trace r = (pre ++ [EvValidate sp p d (Some err)])%list).
Proof.
  unfold runTestCase, refreshPlanValidate, fatalReport.
  run_cases h;
    first
      [ left; split; [reflexivity|]; eexists; repeat split; reflexivity
      | right; do 4 eexists; split; [reflexivity|]; split; [reflexivity|];
        match goal with
        | |- exists pre, ?tr = _ =>
            exists (take (length tr - 1) tr); reflexivity
        end ].
Qed.

(** C6. When the parsed spec has mocks, any refresh and any plan of the
    run comes after a call that injects exactly the mocks of the spec
    and reports no error, made after the spec was parsed; the mocks go
    into the options the refreshed and planned context was created
    from. *)
Theorem mocks_injected_before_refresh_and_plan `{Engine} {W : Type}
    (h : Handler) (w : W) (displayPlan : bool) (tc : testCase) :
  let tr := trace (run h (runTestCase displayPlan tc) w) in
  forall i filename schemas spec ds j ev ctx,
    tr !! i = Some (EvReadSpec filename schemas spec ds) ->
    Mocks spec <> [] ->
    tr !! j = Some ev ->
    contextOf ev = Some ctx ->
    exists k opts dk,
      (i < k < j)%nat
      /\ tr !! k = Some (EvInject opts (Mocks spec) dk)
      /\ HasErrors dk = false
      /\ exists i0 d0, (i0 < k)%nat /\ tr !! i0 = Some (EvNewContext opts ctx d0).
Proof.
  unfold runTestCase, refreshPlanValidate, fatalReport.
  run_cases h; intros i filename schemas spec ds j ev ctx Hi Hm Hj Hc;
    at_index i Hi; try congruence;
    at_index j Hj; try discriminate; cbn in Hc; simplify_eq;
    (exists 4%nat; do 2 eexists; split; [lia|]; split; [cbn; f_equal; f_equal; congruence|];
     split; [eassumption|]; exists 1%nat; eexists; split; [lia|reflexivity]).
Qed.

(** ** The process *)

(** ** Every behaviour of the pipeline *)

(** Follows every way the code can produce the events of a path. *)
Ltac path_cases H :=
  repeat (cbn in H;
    match type of H with
    | context [HasErrors ?d] => destruct (HasErrors d) eqn:?
    | context [Mocks ?s] => destruct (Mocks s) eqn:?
    | context [if ?b then _ else _] => is_var b; destruct b
    | context [match ?e with Some _ => _ | None => _ end] => is_var e; destruct e
    | path _ ?evs _ => is_var evs; destruct evs as [|? evs]
    | False => destruct H
    | exists _, _ =>
        let x := fresh "x" in
        destruct H as (x & -> & H);
        try match type of x with (_ * _)%type => destruct x end
    | _ /\ _ => destruct H as [-> H]
    end);
  cbn in H; subst; cbn.

Ltac unfold_pipeline :=
  unfold runTestCase, refreshPlanValidate, fatalReport, send, call.

Lemma path_snoc_call `{Engine} {X} (c : Call X) k x evs : forall p,
  path p evs (Do c k) -> path p (evs ++ [eventOf c x]) (k x).
Proof.
  induction evs as [|ev evs IH]; intros p Hp; cbn in *.
  - subst p. eauto.
  - destruct p; try contradiction.
    + destruct Hp as (y & -> & Hp). eauto.
    + destruct Hp as [-> Hp]. eauto.
Qed.

Lemma path_snoc_send `{Engine} r k evs : forall p,
  path p evs (Send r k) -> path p (evs ++ [EvSend r]) k.
Proof.
  induction evs as [|ev evs IH]; intros p Hp; cbn in *.
  - subst p. eauto.
  - destruct p; try contradiction.
    + destruct Hp as (y & -> & Hp). eauto.
    + destruct Hp as [-> Hp]. eauto.
Qed.

(** Along any path of [runTestCase]: a goroutine that has returned has
    sent exactly one report, as its last action and under the name of
    its case, and one that has not returned has sent none; a validation
    has returned an error exactly when the goroutine is at the
    [log.Fatal] of that error. *)
Lemma path_runTestCase_reports `{Engine} (displayPlan : bool) (tc : testCase) evs q :
  path (runTestCase displayPlan tc) evs q ->
  (if hasReturned q
   then exists rep, sends evs = [rep] /\ rname rep = name tc
                    /\ last evs = Some (EvSend rep)
   else sends evs = [])
  /\ validateErrors evs = option_list (fatalOf q).
Proof.
  unfold_pipeline. intros Hp.
  path_cases Hp; (split; [|reflexivity]);
    first [ reflexivity | eexists; repeat split; reflexivity ].
Qed.


(** ** The process: the log and the wait group *)

(** Reduces the fields of an explicit process state and nothing else. *)
Ltac proj_simpl := cbn [world tasks wg closed exitCode received log status].


Section ProcessFacts.
Context `{Engine} {W : Type}.
Variable h : @Handler _ W.

Lemma eventsOf_snoc i j ev (lg : list (nat * Event)) :
  eventsOf i (lg ++ [(j, ev)]) = (eventsOf i lg ++ if (j =? i)%nat then [ev] else [])%list.
Proof.
  unfold eventsOf. rewrite omap_app. cbn. now destruct (j =? i)%nat.
Qed.

Lemma eventsOf_snoc_same i ev (lg : list (nat * Event)) :
  eventsOf i (lg ++ [(i, ev)]) = (eventsOf i lg ++ [ev])%list.
Proof. now rewrite eventsOf_snoc, Nat.eqb_refl. Qed.

Lemma eventsOf_snoc_other i j ev (lg : list (nat * Event)) :
  j <> i -> eventsOf i (lg ++ [(j, ev)]) = eventsOf i lg.
Proof.
  intros Hne. rewrite eventsOf_snoc.
  destruct (Nat.eqb_spec j i); [contradiction|]. apply app_nil_r.
Qed.

Lemma sentBy_eventsOf i (lg : list (nat * Event)) :
  sentBy i lg = sends (eventsOf i lg).
Proof.
  induction lg as [|[j ev] lg IH]; [reflexivity|].
  unfold sentBy, eventsOf, sends in *. cbn.
  destruct (j =? i)%nat; cbn; [|exact IH].
  destruct (sendOf ev); cbn; now rewrite IH.
Qed.

Lemma In_eventsOf i ev (lg : list (nat * Event)) :
  In ev (eventsOf i lg) <-> In (i, ev) lg.
Proof.
  induction lg as [|[j e] lg IH]; [reflexivity|].
  unfold eventsOf in *. cbn.
  destruct (Nat.eqb_spec j i) as [->|Hne]; cbn; rewrite IH.
  - split; (intros [Heq|Hin]; [left; congruence | now right]).
  - split; [now right|]. intros [Heq|Hin]; [congruence | assumption].
Qed.

Lemma running_cons (g : Goroutine) (l : list Goroutine) :
  length (filter isRunning (g :: l))
  = if isRunning g then S (length (filter isRunning l))
    else length (filter isRunning l).
Proof. rewrite filter_cons. now destruct (isRunning g). Qed.

Lemma running_pos (l : list Goroutine) i p :
  l !! i = Some (Running p) -> (0 < length (filter isRunning l))%nat.
Proof.
  revert i. induction l as [|a l IH]; intros [|i] Hi; try discriminate;
    simpl in Hi; rewrite running_cons.
  - injection Hi as ->. simpl. lia.
  - destruct (isRunning a); [lia | eauto].
Qed.

Lemma running_insert_same (l : list Goroutine) i g g1 :
  l !! i = Some g -> isRunning g1 = isRunning g ->
  length (filter isRunning (<[i:=g1]> l)) = length (filter isRunning l).
Proof.
  revert i. induction l as [|a l IH]; intros [|i] Hi Hr; try discriminate; simpl in Hi.
  - injection Hi as ->.
    change (<[0%nat:=g1]> (g :: l)) with (g1 :: l). now rewrite !running_cons, Hr.
  - change (<[S i:=g1]> (a :: l)) with (a :: <[i:=g1]> l).
    rewrite !running_cons, (IH i) by assumption. reflexivity.
Qed.

Lemma running_insert_finished (l : list Goroutine) i p :
  l !! i = Some (Running p) ->
  length (filter isRunning (<[i:=Finished]> l)) = pred (length (filter isRunning l)).
Proof.
  revert i. induction l as [|a l IH]; intros [|i] Hi; try discriminate; simpl in Hi.
  - injection Hi as ->.
    change (<[0%nat:=Finished]> (Running p :: l)) with (Finished :: l).
    now rewrite !running_cons.
  - change (<[S i:=Finished]> (a :: l)) with (a :: <[i:=Finished]> l).
    rewrite !running_cons, (IH i) by assumption.
    pose proof (running_pos _ _ _ Hi). destruct (isRunning a); lia.
Qed.

Lemma none_running (l : list Goroutine) :
  length (filter isRunning l) = 0%nat ->
  forall i g, l !! i = Some g -> g = Finished.
Proof.
  induction l as [|a l IH]; intros Hl [|i] g Hi; try discriminate;
    rewrite running_cons in Hl; simpl in Hi.
  - injection Hi as ->. destruct g; [discriminate | reflexivity].
  - destruct (isRunning a); [discriminate | eauto].
Qed.

Lemma all_running (displayPlan : bool) (tcs : list testCase) :
  length (filter isRunning
            ((fun tc => Running (runTestCase displayPlan tc)) <$> tcs))
  = length tcs.
Proof.
  induction tcs as [|tc tcs IH]; [reflexivity|].
  rewrite fmap_cons, running_cons. simpl. now rewrite IH.
Qed.

Lemma sendOf_eventOf {X} (c : Call X) (x : X) : sendOf (eventOf c x) = None.
Proof. destruct c; reflexivity. Qed.

Lemma anyError_snoc (rs : list testReport) r :
  anyError (rs ++ [r]) = anyError rs || HasErrors (report r).
Proof. unfold anyError. rewrite existsb_app. simpl. now rewrite orb_false_r. Qed.

Lemma senders_snoc i ev (lg : list (nat * Event)) :
  senders (lg ++ [(i, ev)])
  = (senders lg ++ match sendOf ev with Some _ => [i] | None => [] end)%list.
Proof.
  unfold senders. rewrite omap_app. cbn. now destruct (sendOf ev).
Qed.

Lemma In_senders i (lg : list (nat * Event)) :
  In i (senders lg) <-> sentBy i lg <> [].
Proof.
  induction lg as [|[j ev] lg IH]; [cbn; tauto|].
  unfold senders, sentBy in *. cbn.
  destruct (Nat.eqb_spec j i) as [->|Hne]; destruct (sendOf ev); cbn.
  - split; [discriminate | auto].
  - exact IH.
  - rewrite <- IH. split; [intros [?|?]; [congruence | assumption] | auto].
  - exact IH.
Qed.

Lemma length_received (lg : list (nat * Event)) :
  length (omap (fun e => sendOf (snd e)) lg) = length (senders lg).
Proof.
  induction lg as [|[j ev] lg IH]; [reflexivity|].
  unfold senders in *. cbn. destruct (sendOf ev); cbn; now rewrite IH.
Qed.

Lemma In_received i rep (lg : list (nat * Event)) :
  In rep (sentBy i lg) -> In rep (omap (fun e => sendOf (snd e)) lg).
Proof.
  induction lg as [|[j ev] lg IH]; [auto|].
  unfold sentBy in *. cbn.
  destruct (j =? i)%nat; destruct (sendOf ev); cbn; intuition.
Qed.

Section Invariant.
Variable displayPlan : bool.
Variable tcs : list testCase.

Lemma Inv_spawn (w : W) : Inv displayPlan tcs (spawn displayPlan tcs w).
Proof.
  constructor; cbn; try done.
  - apply length_fmap.
  - intros i g Hi. rewrite list_lookup_fmap in Hi.
    destruct (tcs !! i) as [tc|]; [|discriminate].
    injection Hi as <-. eauto.
  - symmetry. apply all_running.
  - constructor.
Qed.

(** A step that extends the log by an event of goroutine [i] and leaves
    it with the code [q] keeps what the log says of every goroutine. *)
Lemma Inv_task_update (s : @Proc _ W) i p q ev :
  Inv displayPlan tcs s ->
  tasks s !! i = Some (Running p) ->
  (forall p0, path p0 (eventsOf i (log s)) p ->
              path p0 (eventsOf i (log s) ++ [ev]) q) ->
  forall j g, <[i := Running q]> (tasks s) !! j = Some g ->
    exists tc, tcs !! j = Some tc
      /\ path (runTestCase displayPlan tc) (eventsOf j (log s ++ [(i, ev)])) (progOf g).
Proof.
  intros HI Hi Hext j g Hj.
  destruct (decide (j = i)) as [->|Hne].
  - rewrite list_lookup_insert_eq in Hj by (eapply lookup_lt_Some; eauto).
    injection Hj as <-.
    destruct (inv_task _ _ _ HI _ _ Hi) as (tc & Htc & Hp).
    exists tc. split; [assumption|]. rewrite eventsOf_snoc_same. now apply Hext.
  - rewrite list_lookup_insert_ne in Hj by congruence.
    destruct (inv_task _ _ _ HI _ _ Hj) as (tc & Htc & Hp).
    exists tc. split; [assumption|]. rewrite eventsOf_snoc_other by congruence.
    assumption.
Qed.

Lemma Inv_bound_snoc (s : @Proc _ W) i p ev :
  Inv displayPlan tcs s ->
  tasks s !! i = Some (Running p) ->
  forall j e, In (j, e) (log s ++ [(i, ev)]) -> (j < length tcs)%nat.
Proof.
  intros HI Hi j e Hin. apply in_app_or in Hin as [Hin|[[= <- <-]|[]]].
  - eapply inv_bound; eauto.
  - rewrite <- (inv_len _ _ _ HI). eapply lookup_lt_Some; eauto.
Qed.

Lemma Inv_step (s : @Proc _ W) l s1 :
  Inv displayPlan tcs s -> step h s l s1 -> Inv displayPlan tcs s1.
Proof.
  intros HI Hstep.
  destruct Hstep as [s i X c k x w1 Hst Hi Hh | s i r k Hst Hcl Hi
                    | s i r k Hst Hcl Hi | s i err Hst Hi | s i Hst Hi
                    | s Hst Hwg Hcl | s Hst Hcl ].
  - (* a call *)
    constructor; proj_simpl.
    + rewrite length_insert. apply HI.
    + eapply Inv_task_update; eauto. intros p0. apply path_snoc_call.
    + rewrite (running_insert_same _ _ _ _ Hi) by reflexivity. apply HI.
    + apply HI.
    + apply HI.
    + rewrite omap_app. cbn. rewrite sendOf_eventOf, app_nil_r. apply HI.
    + rewrite senders_snoc, sendOf_eventOf, app_nil_r. apply HI.
    + eapply Inv_bound_snoc; eauto.
    + now rewrite Hst.
  - (* a report is sent and received *)
    constructor; proj_simpl.
    + rewrite length_insert. apply HI.
    + eapply Inv_task_update; eauto. intros p0. apply path_snoc_send.
    + rewrite (running_insert_same _ _ _ _ Hi) by reflexivity. apply HI.
    + apply HI.
    + rewrite anyError_snoc, (inv_code _ _ _ HI).
      destruct (anyError (received s)), (HasErrors (report r)); reflexivity.
    + rewrite omap_app. cbn. now rewrite <- (inv_recv _ _ _ HI).
    + rewrite senders_snoc. cbn. apply NoDup_app. split; [apply HI|].
      split; [|apply NoDup_singleton].
      intros j Hj ->%list_elem_of_singleton.
      apply list_elem_of_In, In_senders in Hj. apply Hj.
      destruct (inv_task _ _ _ HI _ _ Hi) as (tc & _ & Hp).
      apply path_runTestCase_reports in Hp as [Hs _].
      now rewrite sentBy_eventsOf.
    + eapply Inv_bound_snoc; eauto.
    + now rewrite Hst.
  - (* a send on the closed channel: no goroutine is left to send *)
    exfalso. pose proof (inv_closed _ _ _ HI Hcl) as Hwg.
    rewrite (inv_wg _ _ _ HI) in Hwg.
    now pose proof (none_running _ Hwg _ _ Hi).
  - (* log.Fatal *)
    constructor; proj_simpl; try apply HI. eauto.
  - (* wg.Done *)
    constructor; proj_simpl; try apply HI.
    + rewrite length_insert. apply HI.
    + intros j g Hj. destruct (decide (j = i)) as [->|Hne].
      * rewrite list_lookup_insert_eq in Hj by (eapply lookup_lt_Some; eauto).
        injection Hj as <-. exact (inv_task _ _ _ HI _ _ Hi).
      * rewrite list_lookup_insert_ne in Hj by congruence.
        exact (inv_task _ _ _ HI _ _ Hj).
    + rewrite (running_insert_finished _ _ _ Hi). now rewrite (inv_wg _ _ _ HI).
    + intros Hc. now rewrite (inv_closed _ _ _ HI Hc).
    + now rewrite Hst.
  - (* close *)
    constructor; proj_simpl; try apply HI; [done | now rewrite Hst].
  - (* os.Exit *)
    constructor; proj_simpl; try apply HI. done.
Qed.

Lemma Inv_exec (w : W) ls s :
  exec h (spawn displayPlan tcs w) ls s -> Inv displayPlan tcs s.
Proof.
  induction 1 as [|ls s l s1 Hex IH Hstep]; [apply Inv_spawn|].
  eapply Inv_step; eauto.
Qed.

End Invariant.

End ProcessFacts.

(** ** The process: what every run satisfies *)

Section ProcessTheorems.
Context `{Engine} {W : Type}.
Variable h : @Handler _ W.

Lemma step_Collecting (s : @Proc _ W) l s1 : step h s l s1 -> status s = Collecting.
Proof. now destruct 1. Qed.

(** Once the process has ended nothing happens any more. *)
Lemma exec_ended (s0 : @Proc _ W) ls s :
  status s0 <> Collecting -> exec h s0 ls s -> s = s0 /\ ls = [].
Proof.
  intros Hst Hex. induction Hex as [|ls s l s1 Hex IH Hstep]; [done|].
  destruct IH as [-> ->]. apply step_Collecting in Hstep. contradiction.
Qed.

Lemma exec_cons (s0 : @Proc _ W) l s1 ls s :
  step h s0 l s1 -> exec h s1 ls s -> exec h s0 (l :: ls) s.
Proof.
  intros Hstep Hex. induction Hex as [|ls s l1 s2 Hex IH Hstep1].
  - apply (exec_snoc h s0 [] s0 l s1); [constructor | assumption].
  - apply (exec_snoc h s0 (l :: ls) s l1 s2); assumption.
Qed.

Lemma fire_sound ch (s : @Proc _ W) l s1 :
  fire h ch s = Some (l, s1) -> step h s l s1.
Proof.
  unfold fire. destruct (status s) eqn:Hst; try discriminate.
  destruct ch as [i| |].
  - destruct (tasks s !! i) as [[p|]|] eqn:Hi; try discriminate.
    destruct p as [[]|X c k|r k|err].
    + intros [= <- <-]. rewrite <- Hst. now apply step_done.
    + destruct (h X c (world s)) as [x w1] eqn:Hh.
      intros [= <- <-]. rewrite <- Hst. eapply step_call; eauto.
    + destruct (closed s) eqn:Hcl; intros [= <- <-].
      * rewrite <- Hcl. eapply step_send_closed; eauto.
      * rewrite <- Hst, <- Hcl. eapply step_send; eauto.
    + intros [= <- <-]. now apply step_fatal.
  - destruct (Nat.eqb_spec (wg s) 0); [|discriminate].
    destruct (closed s) eqn:Hcl; [discriminate|].
    intros [= <- <-]. rewrite <- Hst. now apply step_close.
  - destruct (closed s) eqn:Hcl; [|discriminate].
    intros [= <- <-]. rewrite <- Hcl. now apply step_exit.
Qed.

Lemma fires_sound sched : forall (s : @Proc _ W) ls s1,
  fires h sched s = Some (ls, s1) -> exec h s ls s1.
Proof.
  induction sched as [|ch sched IH]; intros s ls s1; cbn.
  - intros [= <- <-]. constructor.
  - destruct (fire h ch s) as [[l s2]|] eqn:Hf; [|discriminate].
    destruct (fires h sched s2) as [[ls2 s3]|] eqn:Hfs; [|discriminate].
    intros [= <- <-]. eapply exec_cons; [eapply fire_sound|]; eauto.
Qed.

(** Once the channel is closed every goroutine has finished, each has
    sent exactly one report, under the name of its case, and [main] has
    received them all: as many reports as there are cases. *)
Lemma closed_all_reported displayPlan tcs (w : W) ls s :
  exec h (spawn displayPlan tcs w) ls s ->
  closed s = true ->
  (forall i tc, tcs !! i = Some tc ->
     tasks s !! i = Some Finished
     /\ exists rep, sentBy i (log s) = [rep] /\ rname rep = name tc
                    /\ In rep (received s))
  /\ senders (log s) ≡ₚ seq 0 (length tcs)
  /\ length (received s) = length tcs.
Proof.
  intros Hex Hcl. pose proof (Inv_exec h _ _ _ _ _ Hex) as HI.
  pose proof (inv_closed _ _ _ HI Hcl) as Hwg. rewrite (inv_wg _ _ _ HI) in Hwg.
  assert (Hall : forall i tc, tcs !! i = Some tc ->
            tasks s !! i = Some Finished
            /\ exists rep, sentBy i (log s) = [rep] /\ rname rep = name tc
                           /\ In rep (received s)).
  { intros i tc Htc.
    destruct (lookup_lt_is_Some_2 (tasks s) i) as [g Hg].
    { rewrite (inv_len _ _ _ HI). eapply lookup_lt_Some; eauto. }
    rewrite (none_running _ Hwg _ _ Hg) in Hg. split; [assumption|].
    destruct (inv_task _ _ _ HI _ _ Hg) as (tc1 & Htc1 & Hp).
    assert (tc1 = tc) as -> by congruence.
    apply path_runTestCase_reports in Hp as [(rep & Hs & Hn & _) _].
    exists rep. rewrite sentBy_eventsOf. repeat split; try assumption.
    rewrite (inv_recv _ _ _ HI). apply (In_received i).
    rewrite sentBy_eventsOf, Hs. now left. }
  assert (Hperm : senders (log s) ≡ₚ seq 0 (length tcs)).
  { apply NoDup_Permutation; [apply HI | apply NoDup_seq|].
    intros i. rewrite !list_elem_of_In, in_seq. split.
    - intros Hin. apply In_senders in Hin.
      destruct (sentBy i (log s)) as [|rep l] eqn:Hs; [contradiction|].
      assert (Hrep : In rep (sentBy i (log s))) by (rewrite Hs; now left).
      rewrite sentBy_eventsOf in Hrep. unfold sends in Hrep.
      apply list_elem_of_In, list_elem_of_omap in Hrep as (ev & Hev & _).
      apply list_elem_of_In, In_eventsOf in Hev.
      pose proof (inv_bound _ _ _ HI _ _ Hev). lia.
    - intros [_ Hlt]. destruct (lookup_lt_is_Some_2 tcs i Hlt) as [tc Htc].
      destruct (Hall _ _ Htc) as (_ & rep & Hs & _).
      apply In_senders. now rewrite Hs. }
  split; [exact Hall|]. split; [exact Hperm|].
  rewrite (inv_recv _ _ _ HI), length_received, Hperm. apply length_seq.
Qed.

Lemma some_running (l : list Goroutine) :
  length (filter isRunning l) <> 0%nat ->
  exists i p, l !! i = Some (Running p).
Proof.
  induction l as [|g l IH]; [done|]. rewrite running_cons.
  destruct g as [p|]; cbn.
  - intros _. now exists 0%nat, p.
  - intros Hl. destruct (IH Hl) as (i & p & Hi). now exists (S i), p.
Qed.

(** X17. The process never gets stuck: as long as [main] is collecting,
    some goroutine can take a step, or the channel can be closed, or
    [main] can leave its loop. *)
Lemma process_progress displayPlan tcs (w : W) ls s :
  exec h (spawn displayPlan tcs w) ls s ->
  status s = Collecting ->
  exists ch l s1, fire h ch s = Some (l, s1).
Proof.
  intros Hex Hst. pose proof (Inv_exec h _ _ _ _ _ Hex) as HI.
  destruct (Nat.eq_dec (length (filter isRunning (tasks s))) 0%nat) as [Hz|Hnz].
  - rewrite <- (inv_wg _ _ _ HI) in Hz. destruct (closed s) eqn:Hcl.
    + exists ExitMain. unfold fire. rewrite Hst, Hcl. eauto.
    + exists CloseChannel. unfold fire. rewrite Hst, Hcl, Hz. cbn. eauto.
  - destruct (some_running _ Hnz) as (i & p & Hi).
    exists (Go i). unfold fire. rewrite Hst, Hi.
    destruct p as [[]|X c k|r k|err]; eauto.
    + destruct (h X c (world s)). eauto.
    + destruct (closed s); eauto.
Qed.

(** C2. [main] ends with [os.Exit] only after the channel has been
    closed, and the channel is closed only when every goroutine has
    finished and [main] has received the one report of each case; the
    exit code is then 1 if some received report holds an error
    diagnostic and 0 otherwise. *)
Theorem main_exit_code fs specDir displayPlan (w : W) ls s :
  exec h (main fs specDir displayPlan w) ls s ->
  (closed s = true ->
     exists tcs,
       findCases fs specDir = Returns tcs
       /\ length (received s) = length tcs
       /\ forall i tc, tcs !! i = Some tc ->
            tasks s !! i = Some Finished
            /\ exists rep, sentBy i (log s) = [rep] /\ rname rep = name tc
                           /\ In rep (received s))
  /\ (forall code, status s = Exited code ->
        closed s = true /\ code = if anyError (received s) then 1 else 0).
Proof.
  unfold main. intros Hex.
  destruct (findCases fs specDir) as [tcs|cause] eqn:Hfind;
    [destruct (length tcs =? 0)%nat|].
  2: { pose proof (Inv_exec h _ _ _ _ _ Hex) as HI. split.
       - intros Hcl. exists tcs. split; [reflexivity|].
         destruct (closed_all_reported _ _ _ _ _ Hex Hcl) as (Hall & _ & Hlen).
         split; assumption.
       - intros code Hst. pose proof (inv_status _ _ _ HI) as Hs.
         rewrite Hst in Hs. destruct Hs as [-> Hcl]. split; [assumption|].
         apply HI. }
  all: apply exec_ended in Hex as [-> _]; [|discriminate];
       split; [discriminate | intros code; discriminate].
Qed.



End ProcessTheorems.

(** ** Runs of the scripted engine *)

Section DemoRuns.
Local Existing Instance demoEngine.

Example pair_discovered : findCases pairFS "suite" = Returns [badCase; goodCase].
Proof. reflexivity. Qed.

(** Two cases, the plan of one fails: the exit code is 1 and both
    reports are received. *)
Lemma pair_run :
  exists ls s,
    exec pairHandler (main pairFS "suite" false 0%nat) ls s
    /\ status s = Exited 1
    /\ map rname (received s) = ["bad"; "good"].
Proof.
  assert (Hf : exists ls s,
            fires pairHandler pairSchedule (main pairFS "suite" false 0%nat)
            = Some (ls, s)
            /\ status s = Exited 1
            /\ map rname (received s) = ["bad"; "good"]).
  { vm_compute. do 2 eexists. split; [reflexivity|]. split; reflexivity. }
  destruct Hf as (ls & s & Hf & Hst & Hr).
  exists ls, s. split; [|split; assumption]. now apply fires_sound with pairSchedule.
Qed.

Lemma main_exit_code_witness :
  exists ls s,
    exec pairHandler (main pairFS "suite" false 0%nat) ls s
    /\ status s = Exited 1
    /\ closed s = true
    /\ anyError (received s) = true.
Proof.
  destruct pair_run as (ls & s & Hex & Hst & _).
  exists ls, s. split; [assumption|]. split; [assumption|].
  destruct (main_exit_code pairHandler _ _ _ _ _ _ Hex) as [_ Hcode].
  destruct (Hcode 1 Hst) as [Hcl Hone]. split; [assumption|].
  destruct (anyError (received s)); [reflexivity | discriminate].
Defined.



(** A single case whose validation returns an error: the process is
    ended by [log.Fatal] and nothing has been received. *)
Lemma solo_run :
  exists ls s,
    exec (demoHandler validateBreaks) (main soloFS "solo" false 0%nat) ls s
    /\ status s = Aborted (FatalError "cannot decode plan")
    /\ received s = [].
Proof.
  assert (Hf : exists ls s,
            fires (demoHandler validateBreaks)
              [Go 0; Go 0; Go 0; Go 0; Go 0; Go 0; Go 0; Go 0]%nat
              (main soloFS "solo" false 0%nat) = Some (ls, s)
            /\ status s = Aborted (FatalError "cannot decode plan")
            /\ received s = []).
  { vm_compute. do 2 eexists. split; [reflexivity|]. split; reflexivity. }
  destruct Hf as (ls & s & Hf & Hst & Hr).
  apply fires_sound in Hf. eauto.
Qed.


(** C8 fails on the code when a validation returns an error: the case
    sends no report at all, and [log.Fatal] ends the process before
    anything is received. *)
Example validate_error_sends_no_report :
  let r := run (demoHandler validateBreaks) (runTestCase false demoCase) 0%nat in
  outcome r = Dies (FatalError "cannot decode plan")
  /\ sends (trace r) = []
  /\ exists ls s,
       exec (demoHandler validateBreaks) (main soloFS "solo" false 0%nat) ls s
       /\ status s = Aborted (FatalError "cannot decode plan")
       /\ received s = [].
Proof.
  split; [reflexivity|]. split; [reflexivity|]. exact solo_run.
Qed.

Lemma mocks_injected_before_refresh_and_plan_witness :
  let tr := trace (run (demoHandler passing) (runTestCase false demoCase) 0%nat) in
  exists k opts dk,
    (3 < k < 5)%nat
    /\ tr !! k = Some (EvInject opts ["data.aws_ami.ubuntu"] dk)
    /\ HasErrors dk = false.
Proof.
  intros tr.
  destruct (mocks_injected_before_refresh_and_plan (demoHandler passing) 0%nat
              false demoCase 3%nat _ _ _ _ 5%nat _ 8%nat
              eq_refl ltac:(discriminate) eq_refl eq_refl)
    as (k & opts & dk & Hk & Hinj & Hd & _).
  exists k, opts, dk. repeat split; try assumption; apply Hk.
Defined.

End DemoRuns.


(** * Further properties of the code *)

(** ** The per-case pipeline: what the reports hold, what is never called *)

(** A sequential run is one of the behaviours of the code. *)
Lemma run_path `{Engine} {W : Type} (h : Handler) (p : Prog unit) : forall w : W,
  path p (trace (run h p w)) (stoppedAt (outcome (run h p w))).
Proof.
  induction p as [[]|X c k IH|r k IH|err]; intros w; cbn.
  - reflexivity.
  - destruct (h X c w) as [x w1]. cbn. exists x. split; [reflexivity | apply IH].
  - split; [reflexivity | apply IH].
  - reflexivity.
Qed.

(** Splits an explicit list into all but its last element and the
    last. *)
Ltac split_last :=
  match goal with
  | |- exists pre st, ?l = _ /\ _ =>
      exists (take (length l - 1) l); eexists; split; [reflexivity|]
  end.

(** X1. The report of a case is made of the diagnostics of the last
    stage that ran and of nothing else: every earlier stage returned
    diagnostics without an error, and whatever they held (warnings) is
    in no report.  The last stage is the validation or a stage that
    failed. *)
Theorem report_holds_last_stage_only `{Engine} (displayPlan : bool) (tc : testCase)
    evs q rep :
  path (runTestCase displayPlan tc) evs q ->
  In rep (sends evs) ->
  exists pre st,
    stageResults evs = (pre ++ [(st, report rep)])%list
    /\ Forall (fun sd => HasErrors (snd sd) = false) pre
    /\ (st = Validated \/ HasErrors (report rep) = true).
Proof.
  unfold_pipeline. intros Hp. revert rep.
  path_cases Hp; intros rep Hin; try contradiction;
    destruct Hin as [<-|[]]; cbn; split_last;
    (split; [repeat constructor; assumption | auto]).
Qed.

(** Finds an event in an explicit list. *)
Ltac find_event :=
  cbn; repeat first [ left; reflexivity | right ].

(** X2. The plan is rendered at most once, and never without
    [--display-plan]; the plan text of a report is the rendering when
    there is one and empty otherwise.  So without the flag every report
    has an empty plan text, and a report of a failed stage always
    has. *)
Theorem plan_text_is_the_rendering `{Engine} (displayPlan : bool) (tc : testCase)
    evs q :
  path (runTestCase displayPlan tc) evs q ->
  (displayPlan = false -> rendered evs = [])
  /\ (length (rendered evs) <= 1)%nat
  /\ (forall rep, In rep (sends evs) ->
        plan rep = default "" (head (rendered evs))
        /\ (HasErrors (report rep) = true ->
            last (stages evs) <> Some Validated -> plan rep = "")).
Proof.
  unfold_pipeline. intros Hp.
  path_cases Hp;
    (split; [try reflexivity; discriminate|]);
    (split; [lia|]);
    intros rep Hin; try contradiction;
    destruct Hin as [<-|[]]; cbn; split; try reflexivity;
    intros _ Hl; now contradiction Hl.
Qed.

(** X3. Mocks are injected at most once, they are exactly the mocks of
    the spec that was parsed, and a spec without mocks leads to no
    injection at all. *)
Theorem mocks_injected_only_when_declared `{Engine} (displayPlan : bool)
    (tc : testCase) evs q :
  path (runTestCase displayPlan tc) evs q ->
  (injected evs = []
   \/ exists spec, specsRead evs = [spec] /\ Mocks spec <> []
                   /\ injected evs = [Mocks spec])
  /\ (forall spec, In spec (specsRead evs) -> Mocks spec = [] -> injected evs = []).
Proof.
  unfold_pipeline. intros Hp.
  path_cases Hp;
    (split;
     [ first [ left; reflexivity
             | right; eexists; split; [reflexivity|]; split;
               [congruence | cbn; congruence] ]
     | intros spec Hin Hm; first [ reflexivity | destruct Hin as [<-|[]]; congruence ] ]).
Qed.

(** X4. Every case is run against the configuration of the current
    directory ["."], with the variables file and the spec file of the
    case; the context is created from the options just read, refresh and
    plan work on that context, and the validation is given the spec that
    was parsed and the plan that was computed. *)
Theorem calls_use_what_earlier_calls_returned `{Engine} (displayPlan : bool)
    (tc : testCase) evs q :
  path (runTestCase displayPlan tc) evs q ->
  (forall d v o ds, In (EvNewContextOptions d v o ds) evs ->
     d = "." /\ v = variableFile tc)
  /\ (forall o ctx ds, In (EvNewContext o ctx ds) evs ->
        exists d v ds0, In (EvNewContextOptions d v o ds0) evs)
  /\ (forall f sch sp ds, In (EvReadSpec f sch sp ds) evs -> f = specFile tc)
  /\ (forall ev ctx, In ev evs -> contextOf ev = Some ctx ->
        exists o ds, In (EvNewContext o ctx ds) evs)
  /\ (forall sp p ds err, In (EvValidate sp p ds err) evs ->
        (exists f sch ds0, In (EvReadSpec f sch sp ds0) evs)
        /\ (exists ctx ds0, In (EvPlan ctx p ds0) evs)).
Proof.
  unfold_pipeline. intros Hp.
  path_cases Hp; repeat split;
    try (intros; repeat match goal with
                        | Hin : In _ _ |- _ => cbn in Hin; destruct Hin; simplify_eq
                        | Hin : False |- _ => destruct Hin
                        end; fail);
    intros;
    repeat match goal with
           | Hin : _ \/ _ |- _ => destruct Hin
           | Hin : In _ _ |- _ => cbn in Hin
           | Hin : False |- _ => destruct Hin
           | Hc : contextOf _ = Some _ |- _ => progress (cbn in Hc)
           | _ => progress simplify_eq
           end;
    first [ reflexivity | do 3 eexists; find_event | do 2 eexists; find_event ].
Qed.

(** X5. The older pipeline of [main.go] too ends every behaviour by one
    report under the name of the case, or by [log.Fatal] after a
    validation that returned an error.  It never injects mocks and never
    refreshes; and since it renders the plan before it parses the spec,
    with [--display-plan] the report of a spec that fails to parse
    carries the rendered plan. *)
Theorem older_pipeline_reports `{Engine} (displayPlan : bool) (tc : testCase) evs q :
  path (MainGo.runTestCase displayPlan tc) evs q ->
  (if hasReturned q
   then exists rep, sends evs = [rep] /\ rname rep = name tc
                    /\ last evs = Some (EvSend rep)
   else sends evs = [])
  /\ validateErrors evs = option_list (fatalOf q)
  /\ injected evs = []
  /\ ~ In Refreshed (stages evs)
  /\ (forall rep, In rep (sends evs) ->
        plan rep = default "" (head (rendered evs)))
  /\ (displayPlan = true -> In SpecParsed (stages evs) ->
        exists out, rendered evs = [out]).
Proof.
  unfold MainGo.runTestCase, fatalReport, send, call. intros Hp.
  path_cases Hp;
    (split; [first [reflexivity | eexists; repeat split; reflexivity]|]);
    (split; [reflexivity|]); (split; [reflexivity|]);
    (split; [cbn; intuition discriminate|]);
    (split; [intros rep Hin; try contradiction; destruct Hin as [<-|[]]; reflexivity|]);
    intros Hd Hin; try discriminate; cbn in Hin;
    first [ eexists; reflexivity | intuition discriminate ].
Qed.

Section DemoPipeline.
Local Existing Instance demoEngine.

Lemma report_holds_last_stage_only_witness :
  exists pre st,
    stageResults (trace (run (demoHandler passing) (runTestCase false demoCase) 0%nat))
    = (pre ++ [(st, [infoDiag "ami-123"])])%list
    /\ Forall (fun sd => HasErrors (snd sd) = false) pre.
Proof.
  destruct (report_holds_last_stage_only false demoCase _ _
              {| rname := "plain"; plan := ""; report := [infoDiag "ami-123"] |}
              (run_path (demoHandler passing) (runTestCase false demoCase) 0%nat))
    as (pre & st & Hs & Hpre & _).
  - cbn. now left.
  - exists pre, st. split; assumption.
Defined.

Lemma plan_text_is_the_rendering_witness :
  exists rep,
    sends (trace (run (demoHandler passing) (runTestCase true demoCase) 0%nat)) = [rep]
    /\ plan rep = "the plan".
Proof.
  destruct (plan_text_is_the_rendering true demoCase _ _
              (run_path (demoHandler passing) (runTestCase true demoCase) 0%nat))
    as (_ & _ & Hplan).
  eexists. split; [reflexivity|].
  refine (proj1 (Hplan _ _)). cbn. now left.
Defined.

Lemma mocks_injected_only_when_declared_witness :
  injected (trace (run (demoHandler planFails) (runTestCase false demoCase) 0%nat)) = [].
Proof.
  destruct (mocks_injected_only_when_declared false demoCase _ _
              (run_path (demoHandler planFails) (runTestCase false demoCase) 0%nat))
    as (_ & Hnone).
  apply (Hnone []); [cbn; now left | reflexivity].
Defined.

Lemma calls_use_what_earlier_calls_returned_witness :
  (exists f sch ds,
     In (EvReadSpec f sch ["data.aws_ami.ubuntu"] ds)
        (trace (run (demoHandler passing) (runTestCase false demoCase) 0%nat)))
  /\ (exists ctx ds,
        In (EvPlan ctx "the plan" ds)
           (trace (run (demoHandler passing) (runTestCase false demoCase) 0%nat))).
Proof.
  destruct (calls_use_what_earlier_calls_returned false demoCase _ _
              (run_path (demoHandler passing) (runTestCase false demoCase) 0%nat))
    as (_ & _ & _ & _ & Hv).
  apply (Hv ["data.aws_ami.ubuntu"] "the plan" [infoDiag "ami-123"] None).
  find_event.
Defined.

Lemma older_pipeline_reports_witness :
  sends (trace (run (demoHandler specFails) (MainGo.runTestCase true demoCase) 0%nat))
  = [{| rname := "plain"; plan := "the plan";
        report := [errorDiag "unknown resource"] |}]
  /\ exists out,
       rendered (trace (run (demoHandler specFails)
                          (MainGo.runTestCase true demoCase) 0%nat)) = [out].
Proof.
  split; [reflexivity|].
  destruct (older_pipeline_reports true demoCase _ _
              (run_path (demoHandler specFails) (MainGo.runTestCase true demoCase) 0%nat))
    as (_ & _ & _ & _ & _ & Hr).
  apply Hr; [reflexivity|]. cbn. auto.
Defined.

End DemoPipeline.

(** ** The process: termination, the wait group, the names reported *)

Section ProcessExtras.
Context `{Engine} {W : Type}.
Variable h : @Handler _ W.

(** No behaviour of [runTestCase] has more than eleven events: ten
    calls at most, and one send. *)
Lemma path_runTestCase_length (displayPlan : bool) (tc : testCase) evs q :
  path (runTestCase displayPlan tc) evs q -> (length evs <= 11)%nat.
Proof.
  unfold_pipeline. intros Hp. path_cases Hp; lia.
Qed.

Lemma eventsOf_split i (lg : list (nat * Event)) :
  length lg
  = (length (eventsOf i lg) + length (filter (fun e => fst e <> i) lg))%nat.
Proof.
  induction lg as [|[j ev] lg IH]; [reflexivity|].
  rewrite filter_cons. unfold eventsOf in *. cbn.
  destruct (Nat.eqb_spec j i) as [->|Hne]; cbn.
  - destruct (decide (i <> i)); [contradiction|]. lia.
  - destruct (decide (j <> i)); [cbn; lia | contradiction].
Qed.

Lemma eventsOf_filter_ne i j (lg : list (nat * Event)) :
  j <> i -> eventsOf j (filter (fun e => fst e <> i) lg) = eventsOf j lg.
Proof.
  intros Hne. induction lg as [|[k ev] lg IH]; [reflexivity|].
  rewrite filter_cons. cbn [fst].
  destruct (decide (k <> i)) as [Hk|Hk].
  - unfold eventsOf in *. cbn. now rewrite IH.
  - assert (k = i) as -> by lia. unfold eventsOf in *. cbn.
    destruct (Nat.eqb_spec i j); [congruence | exact IH].
Qed.

(** A log whose entries all belong to the first [n] goroutines, none of
    which has more than [b] entries, has at most [b * n] entries. *)
Lemma log_length_bound b n : forall lg : list (nat * Event),
  (forall i ev, In (i, ev) lg -> (i < n)%nat) ->
  (forall i, (i < n)%nat -> (length (eventsOf i lg) <= b)%nat) ->
  (length lg <= b * n)%nat.
Proof.
  induction n as [|n IH]; intros lg Hidx Hb.
  - destruct lg as [|[i ev] lg]; [cbn; lia|].
    specialize (Hidx i ev (or_introl eq_refl)). lia.
  - rewrite (eventsOf_split n lg).
    pose proof (Hb n ltac:(lia)) as Hn.
    assert (Hrest : (length (filter (fun e => fst e <> n) lg) <= b * n)%nat).
    { apply IH.
      - intros i ev Hin. apply list_elem_of_In, list_elem_of_filter in Hin as [Hne Hin].
        apply list_elem_of_In, Hidx in Hin. cbn in Hne. lia.
      - intros i Hi. rewrite eventsOf_filter_ne by lia. apply Hb. lia. }
    lia.
Qed.

Lemma running_le (l : list Goroutine) : (length (filter isRunning l) <= length l)%nat.
Proof.
  induction l as [|g l IH]; [reflexivity|].
  rewrite running_cons. destruct (isRunning g); cbn; lia.
Qed.

(** Each step is counted once. *)
Lemma stepsTaken_exec displayPlan tcs (w : W) ls s :
  exec h (spawn displayPlan tcs w) ls s -> length ls = stepsTaken s.
Proof.
  induction 1 as [|ls s l s1 Hex IH Hstep].
  - unfold stepsTaken. cbn. rewrite length_fmap. lia.
  - pose proof (Inv_exec h _ _ _ _ _ Hex) as HI.
    rewrite length_app, IH. cbn [length].
    pose proof (running_le (tasks s)) as Hle. rewrite <- (inv_wg _ _ _ HI) in Hle.
    destruct Hstep as [s i X c k x w1 Hst Hi Hh | s i r k Hst Hcl Hi
                      | s i r k Hst Hcl Hi | s i err Hst Hi | s i Hst Hi
                      | s Hst Hwg Hcl | s Hst Hcl ];
      unfold stepsTaken; proj_simpl; rewrite ?Hst, ?Hcl, ?length_app, ?length_insert;
      cbn [length]; try lia.
    pose proof (running_pos _ _ _ Hi) as Hpos.
    rewrite <- (inv_wg _ _ _ HI) in Hpos. lia.
Qed.

(** X6. Every run of the process is short: over [n] test cases it takes
    at most [12 * n + 2] steps, whatever the schedule and whatever the
    calls return.  With the absence of deadlock this makes every run
    end, by [os.Exit] or by [log.Fatal], provided each call into the
    engine returns. *)
Theorem run_is_bounded displayPlan tcs (w : W) ls s :
  exec h (spawn displayPlan tcs w) ls s ->
  (length ls <= 12 * length tcs + 2)%nat.
Proof.
  intros Hex. rewrite (stepsTaken_exec _ _ _ _ _ Hex).
  pose proof (Inv_exec h _ _ _ _ _ Hex) as HI.
  assert (Hlog : (length (log s) <= 11 * length tcs)%nat).
  { apply log_length_bound; [apply HI|].
    intros i Hi. rewrite <- (inv_len _ _ _ HI) in Hi.
    destruct (lookup_lt_is_Some_2 _ _ Hi) as [g Hg].
    destruct (inv_task _ _ _ HI _ _ Hg) as (tc & _ & Hp).
    eapply path_runTestCase_length; eauto. }
  unfold stepsTaken. rewrite (inv_len _ _ _ HI).
  destruct (closed s), (status s); lia.
Qed.

(** X7. The counter of the wait group always is the number of
    goroutines that have not yet called [wg.Done]: no call of [Done]
    finds it at zero, and it is zero exactly when all have finished. *)
Theorem wait_group_counts_unfinished displayPlan tcs (w : W) ls s :
  exec h (spawn displayPlan tcs w) ls s ->
  wg s = length (filter isRunning (tasks s))
  /\ (forall i s1, step h s (LDone i) s1 -> (0 < wg s)%nat /\ wg s1 = pred (wg s))
  /\ (wg s = 0%nat <-> forall i g, tasks s !! i = Some g -> g = Finished).
Proof.
  intros Hex. pose proof (Inv_exec h _ _ _ _ _ Hex) as HI.
  split; [apply HI|]. split.
  - intros i s1 Hstep. inversion Hstep as [| | | |s0 i0 Hst Hi| |]; subst.
    split; [|reflexivity]. rewrite (inv_wg _ _ _ HI). eapply running_pos; eauto.
  - rewrite (inv_wg _ _ _ HI). split; [apply none_running|].
    intros Hall. destruct (Nat.eq_dec (length (filter isRunning (tasks s))) 0%nat)
      as [Hz|Hnz]; [assumption|].
    destruct (some_running _ Hnz) as (i & p & Hi). now specialize (Hall _ _ Hi).
Qed.

Lemma received_names (f : nat -> string) : forall lg : list (nat * Event),
  (forall i r, In (i, EvSend r) lg -> rname r = f i) ->
  rname <$> omap (fun e => sendOf (snd e)) lg = f <$> senders lg.
Proof.
  induction lg as [|[i ev] lg IH]; intros Hn; [reflexivity|].
  unfold senders in *. cbn.
  assert (IH1 := IH (fun j r Hin => Hn j r (or_intror Hin))).
  destruct ev; cbn; try exact IH1.
  f_equal; [apply Hn; now left | exact IH1].
Qed.

Lemma In_sentBy i r (lg : list (nat * Event)) :
  In (i, EvSend r) lg -> In r (sentBy i lg).
Proof.
  induction lg as [|[j ev] lg IH]; [auto|].
  unfold sentBy in *. cbn. intros [[= -> ->]|Hin].
  - rewrite Nat.eqb_refl. cbn. now left.
  - destruct (j =? i)%nat; [|auto]. destruct (sendOf ev); cbn; auto.
Qed.

Lemma caseName_seq tcs : caseName tcs <$> seq 0 (length tcs) = name <$> tcs.
Proof.
  apply list_eq. intros i. rewrite !list_lookup_fmap.
  destruct (tcs !! i) as [tc|] eqn:Htc.
  - rewrite lookup_seq_lt by (eapply lookup_lt_Some; eauto).
    cbn. unfold caseName. now rewrite Htc.
  - rewrite lookup_seq_ge by (now apply lookup_ge_None). reflexivity.
Qed.

(** X8. When [main] ends by [os.Exit], the names of the reports it has
    received and printed are the names of the discovered test cases,
    each as often as it is the name of a case, in the order the reports
    came in. *)
Theorem received_names_are_case_names fs specDir displayPlan (w : W) ls s code :
  exec h (main fs specDir displayPlan w) ls s ->
  status s = Exited code ->
  exists tcs,
    findCases fs specDir = Returns tcs
    /\ rname <$> received s ≡ₚ name <$> tcs.
Proof.
  unfold main. intros Hex Hst.
  destruct (findCases fs specDir) as [tcs|cause] eqn:Hfind;
    [destruct (length tcs =? 0)%nat|].
  2: { exists tcs. split; [reflexivity|].
       pose proof (Inv_exec h _ _ _ _ _ Hex) as HI.
       pose proof (inv_status _ _ _ HI) as Hs. rewrite Hst in Hs. destruct Hs as [_ Hcl].
       destruct (closed_all_reported h _ _ _ _ _ Hex Hcl) as (Hall & Hperm & _).
       rewrite (inv_recv _ _ _ HI), (received_names (caseName tcs)).
       - rewrite Hperm. now rewrite caseName_seq.
       - intros i r Hin. pose proof (inv_bound _ _ _ HI _ _ Hin) as Hi.
         destruct (lookup_lt_is_Some_2 _ _ Hi) as [tc Htc].
         destruct (Hall _ _ Htc) as (_ & rep & Hs & Hn & _).
         apply In_sentBy in Hin. rewrite Hs in Hin. destruct Hin as [<-|[]].
         unfold caseName. now rewrite Htc. }
  all: apply exec_ended in Hex as [-> _]; [|discriminate]; discriminate.
Qed.

End ProcessExtras.

(** ** Discovery: names, listing order, empty suites *)

Lemma split_sep_nosep l : forall cur,
  forallb (fun c => negb (Filepath.IsPathSeparator c)) l = true ->
  Filepath.split_sep cur l = [(rev cur ++ l)%list].
Proof.
  induction l as [|c l IH]; intros cur Hl; cbn in *.
  - now rewrite app_nil_r.
  - apply andb_true_iff in Hl as [Hc Hl].
    destruct (Filepath.IsPathSeparator c); [discriminate|].
    rewrite IH by assumption. cbn. now rewrite <- app_assoc.
Qed.

Lemma split_sep_snoc a l : forall cur,
  forallb (fun c => negb (Filepath.IsPathSeparator c)) l = true ->
  Filepath.split_sep cur (a ++ Filepath.Separator :: l)
  = (Filepath.split_sep cur a ++ [l])%list.
Proof.
  induction a as [|c a IH]; intros cur Hl; cbn.
  - rewrite split_sep_nosep by assumption. reflexivity.
  - destruct (Filepath.IsPathSeparator c); cbn; now rewrite IH.
Qed.

Lemma join_sep_snoc comps l :
  exists pre,
    Filepath.join_sep (comps ++ [l]) = (pre ++ l)%list
    /\ (pre = [] \/ exists pre1, pre = (pre1 ++ [Filepath.Separator])%list).
Proof.
  induction comps as [|c comps IH].
  - exists []. split; [reflexivity | now left].
  - destruct IH as (pre & Hj & Hpre).
    exists (c ++ Filepath.Separator :: pre)%list. split.
    + change ((c :: comps) ++ [l])%list with (c :: (comps ++ [l]))%list.
      destruct (comps ++ [l])%list as [|c1 r] eqn:E; [now destruct comps|].
      cbn [Filepath.join_sep]. rewrite <- E, Hj || (cbn [Filepath.join_sep] in Hj; rewrite Hj).
      now rewrite <- app_assoc.
    + right. destruct Hpre as [->|(pre1 & ->)].
      * exists c. reflexivity.
      * exists (c ++ Filepath.Separator :: pre1)%list. now rewrite <- app_assoc.
Qed.

Lemma validName_parts n :
  validName n = true ->
  list_ascii_of_string n <> []
  /\ forallb (fun c => negb (Filepath.IsPathSeparator c)) (list_ascii_of_string n) = true
  /\ Filepath.is_dot (list_ascii_of_string n) = false
  /\ Filepath.is_dotdot (list_ascii_of_string n) = false.
Proof.
  unfold validName. cbv zeta. intros Hv.
  repeat (apply andb_true_iff in Hv as [Hv ?]).
  repeat split; try (now apply negb_true_iff); try assumption.
  intros Hl. apply negb_true_iff in Hv. destruct n; discriminate.
Qed.

Lemma clean_step_push rooted out l :
  l <> [] -> Filepath.is_dot l = false -> Filepath.is_dotdot l = false ->
  Filepath.clean_step rooted out l = l :: out.
Proof.
  intros Hne Hd Hdd. unfold Filepath.clean_step.
  destruct l; [contradiction|]. now rewrite Hd, Hdd.
Qed.

Lemma last_elem_app l r :
  forallb (fun c => negb (Filepath.IsPathSeparator c)) l = true ->
  (r = [] \/ exists r1, r = Filepath.Separator :: r1) ->
  Filepath.last_elem (l ++ r) = l.
Proof.
  intros Hl Hr. induction l as [|c l IH]; cbn in *.
  - destruct Hr as [->|(r1 & ->)]; reflexivity.
  - apply andb_true_iff in Hl as [Hc Hl].
    destruct (Filepath.IsPathSeparator c); [discriminate|]. now rewrite IH.
Qed.

(** The last element of a cleaned path that ends in a proper name is
    that name. *)
Lemma Base_Join rootDir n :
  rootDir <> "" -> validName n = true ->
  Filepath.Base (Filepath.Join rootDir n) = n.
Proof.
  intros Hroot Hv. apply validName_parts in Hv as (Hne & Hsep & Hd & Hdd).
  set (l := list_ascii_of_string n) in *.
  unfold Filepath.Join. destruct (String.eqb_spec rootDir ""); [contradiction|].
  unfold Filepath.Clean.
  assert (Hp : list_ascii_of_string (rootDir ++ String Filepath.Separator n)
               = (list_ascii_of_string rootDir ++ Filepath.Separator :: l)%list).
  { clear. induction rootDir as [|c r IH]; [reflexivity|].
    change (list_ascii_of_string (String c (r ++ String Filepath.Separator n))
            = (c :: list_ascii_of_string r ++ Filepath.Separator :: l)%list).
    cbn [list_ascii_of_string]. f_equal. exact IH. }
  rewrite Hp.
  destruct (list_ascii_of_string rootDir) as [|c r] eqn:Hr.
  { destruct rootDir; [contradiction | discriminate]. }
  cbn [app].
  change (c :: (r ++ Filepath.Separator :: l))%list
    with ((c :: r) ++ Filepath.Separator :: l)%list.
  rewrite split_sep_snoc by assumption.
  rewrite fold_left_app. cbn [fold_left].
  rewrite clean_step_push by assumption.
  cbn [rev]. 
  match goal with |- context [Filepath.join_sep (?a ++ [l])] =>
    destruct (join_sep_snoc a l) as (pre & -> & Hpre) end.
  assert (Hbase : forall pre0,
            (pre0 = [] \/ exists p1, pre0 = (p1 ++ [Filepath.Separator])%list) ->
            Filepath.Base (string_of_list_ascii (pre0 ++ l)) = n).
  { intros pre0 Hpre0. unfold Filepath.Base.
    rewrite list_ascii_of_string_of_list_ascii.
    destruct (pre0 ++ l)%list as [|c0 r0] eqn:E.
    { destruct pre0; [cbn in E; contradiction | discriminate]. }
    rewrite <- E, rev_app_distr.
    assert (Hrl : forallb (fun c => negb (Filepath.IsPathSeparator c)) (rev l) = true).
    { rewrite forallb_forall in *. intros x Hx. apply Hsep. now apply in_rev. }
    assert (Hstrip : Filepath.strip_sep (rev l ++ rev pre0) = (rev l ++ rev pre0)%list).
    { destruct (rev l) as [|x rl] eqn:Erl.
      - apply (f_equal (@rev _)) in Erl. rewrite rev_involutive in Erl. contradiction.
      - cbn in *. apply andb_true_iff in Hrl as [Hx _].
        destruct (Filepath.IsPathSeparator x); [discriminate | reflexivity]. }
    rewrite Hstrip, last_elem_app, rev_involutive.
    - destruct l eqn:El; [contradiction|]. rewrite <- El. subst l.
      apply string_of_list_ascii_of_string.
    - assumption.
    - destruct Hpre0 as [->|(p1 & ->)]; [now left|].
      right. rewrite rev_app_distr. cbn. eauto. }
  destruct (Filepath.IsPathSeparator c).
  - apply (Hbase (Filepath.Separator :: pre)).
    right. destruct Hpre as [->|(p1 & ->)].
    + now exists [].
    + now exists (Filepath.Separator :: p1).
  - destruct (pre ++ l)%list eqn:E.
    + destruct pre; [cbn in E; contradiction | discriminate].
    + rewrite <- E. now apply Hbase.
Qed.
Lemma filter_cons_bool {A} (P : A -> bool) x (l : list A) :
  filter P (x :: l) = if P x then x :: filter P l else filter P l.
Proof. rewrite filter_cons. now destruct (P x). Qed.

Lemma names_of_found fs rootDir (rootFis : list FileInfo) :
  rootDir <> "" ->
  Forall (fun fi => validName (Name fi) = true) rootFis ->
  name <$> omap (findCase fs) (subdirs rootDir rootFis)
  = Name <$> filter (isCaseDir fs rootDir) rootFis.
Proof.
  intros Hroot Hv. unfold subdirs.
  induction Hv as [|fi fis Hfi Hv IH]; [reflexivity|].
  rewrite (filter_cons_bool IsDir), (filter_cons_bool (isCaseDir fs rootDir)).
  unfold isCaseDir at 1.
  destruct (IsDir fi); cbn [andb]; [|exact IH].
  change (map ?f (fi :: ?l)) with (f fi :: map f l).
  change (omap ?f (?x :: ?l)) with
    (match f x with Some y => y :: omap f l | None => omap f l end).
  destruct (findCase fs (pathIn rootDir fi)) as [tc|] eqn:E.
  - assert (Hs : hasSpecFile fs (pathIn rootDir fi) = true)
      by (apply hasSpecFile_true; eauto).
    rewrite Hs. cbn. rewrite <- IH. f_equal.
    unfold name. rewrite (findCase_dir _ _ _ E). now apply Base_Join.
  - apply hasSpecFile_false in E. rewrite E. exact IH.
Qed.

(** X9. The cases found in the subdirectories of the spec directory are
    named after these subdirectories: their names are the names of the
    entries that are directories holding a spec file, in the order of
    the sorted listing; the case of the spec directory itself, which
    comes last, is named after the last element of its path. *)
Theorem case_names_are_directory_names fs rootDir rootFis :
  ReadDir fs rootDir = Some rootFis ->
  Forall (fun fi => validName (Name fi) = true) rootFis ->
  exists tcs,
    findCases fs rootDir = Returns tcs
    /\ name <$> tcs
       = ((Name <$> filter (isCaseDir fs rootDir) rootFis)
          ++ if hasSpecFile fs rootDir then [Filepath.Base rootDir] else [])%list.
Proof.
  intros Hroot Hv. pose proof (ReadDir_Some _ _ _ Hroot) as [Hne _].
  unfold findCases. rewrite Hroot, fold_findCases_body. cbn [app].
  destruct (findCase fs rootDir) as [tc|] eqn:E.
  - assert (Hs : hasSpecFile fs rootDir = true) by (apply hasSpecFile_true; eauto).
    rewrite Hs. eexists. split; [reflexivity|].
    rewrite fmap_app, names_of_found by assumption. f_equal. cbn.
    unfold name. now rewrite (findCase_dir _ _ _ E).
  - apply hasSpecFile_false in E. rewrite E. eexists. split; [reflexivity|].
    now rewrite names_of_found, app_nil_r by assumption.
Qed.

Lemma Name_inj_on (l : list FileInfo) x y :
  NoDup (Name <$> l) -> x ∈ l -> y ∈ l -> Name x = Name y -> x = y.
Proof.
  induction l as [|a l IH]; intros Hnd Hx Hy Hn; [now apply elem_of_nil in Hx|].
  rewrite fmap_cons in Hnd. apply NoDup_cons in Hnd as [Ha Hnd].
  apply elem_of_cons in Hx as [->|Hx]; apply elem_of_cons in Hy as [->|Hy]; auto.
  - exfalso. apply Ha. rewrite Hn. now apply list_elem_of_fmap_2.
  - exfalso. apply Ha. rewrite <- Hn. now apply list_elem_of_fmap_2.
Qed.

Lemma ReadDir_sameEntries fs1 fs2 d :
  sameEntries fs1 fs2 -> ReadDir fs1 d = ReadDir fs2 d.
Proof.
  intros Hsame. specialize (Hsame d). unfold ReadDir.
  destruct (d =? "")%string; [reflexivity|].
  destruct (fs1 d) as [l1|], (fs2 d) as [l2|]; try contradiction; [|reflexivity].
  destruct Hsame as [Hperm Hnd]. cbn. f_equal.
  apply (StronglySorted_unique_strong by_name).
  - intros x y Hx Hy Hxy Hyx.
    rewrite merge_sort_Permutation in Hx, Hy. rewrite <- Hperm in Hy.
    apply (Name_inj_on l1); try assumption.
    unfold by_name in *. now apply (anti_symm String.le).
  - apply StronglySorted_merge_sort; apply _.
  - apply StronglySorted_merge_sort; apply _.
  - now rewrite !merge_sort_Permutation.
Qed.

Lemma findCase_sameEntries fs1 fs2 d :
  sameEntries fs1 fs2 -> findCase fs1 d = findCase fs2 d.
Proof.
  intros Hsame. unfold findCase. now rewrite (ReadDir_sameEntries fs1 fs2 d).
Qed.

(** X10. Discovery does not depend on the order in which the system
    lists a directory: two file systems with the same entries in every
    directory give the same test cases, in the same order, with the
    same spec and variables files. *)
Theorem discovery_ignores_listing_order fs1 fs2 rootDir :
  sameEntries fs1 fs2 ->
  findCases fs1 rootDir = findCases fs2 rootDir.
Proof.
  intros Hsame. unfold findCases.
  rewrite (ReadDir_sameEntries fs1 fs2 rootDir Hsame).
  destruct (ReadDir fs2 rootDir) as [rootFis|]; [|reflexivity].
  rewrite !fold_findCases_body, (findCase_sameEntries fs1 fs2 rootDir Hsame).
  assert (Hsub : forall ds : list string,
            omap (findCase fs1) ds = omap (findCase fs2) ds).
  { induction ds as [|d ds IH]; [reflexivity|].
    change (omap ?f (d :: ds)) with
      (match f d with Some y => y :: omap f ds | None => omap f ds end).
    now rewrite (findCase_sameEntries fs1 fs2 d Hsame), IH. }
  now rewrite Hsub.
Qed.

Lemma no_subdir_case fs rootDir (rootFis : list FileInfo) :
  omap (findCase fs) (subdirs rootDir rootFis) = []
  <-> Forall (fun fi => isCaseDir fs rootDir fi = false) rootFis.
Proof.
  unfold subdirs. induction rootFis as [|fi fis IH].
  - split; [constructor | reflexivity].
  - rewrite (filter_cons_bool IsDir), Forall_cons. unfold isCaseDir at 1.
    destruct (IsDir fi); cbn [andb].
    + change (map ?f (fi :: ?l)) with (f fi :: map f l).
      change (omap ?f (?x :: ?l)) with
        (match f x with Some y => y :: omap f l | None => omap f l end).
      destruct (findCase fs (pathIn rootDir fi)) as [tc|] eqn:E.
      * assert (Hs : hasSpecFile fs (pathIn rootDir fi) = true)
          by (apply hasSpecFile_true; eauto).
        rewrite Hs. split; [discriminate | intros [? _]; discriminate].
      * apply hasSpecFile_false in E. rewrite E, IH. tauto.
    + rewrite IH. tauto.
Qed.

(** X11. Discovery finds no test case exactly when neither the spec
    directory nor any of its immediate subdirectories directly holds a
    [.tfspec] file; [main] then ends by [log.Fatal] before any case is
    started, and in no other situation with that message. *)
Theorem no_test_case_iff `{Engine} {W : Type} fs specDir rootFis
    (displayPlan : bool) (w : W) :
  ReadDir fs specDir = Some rootFis ->
  (findCases fs specDir = Returns []
   <-> hasSpecFile fs specDir = false
       /\ Forall (fun fi => isCaseDir fs specDir fi = false) rootFis)
  /\ (status (main fs specDir displayPlan w) = Aborted FatalNoTestCase
      <-> findCases fs specDir = Returns []).
Proof.
  intros Hroot. split.
  - unfold findCases. rewrite Hroot, fold_findCases_body. cbn [app].
    rewrite <- no_subdir_case.
    destruct (findCase fs specDir) as [tc|] eqn:E.
    + assert (Hs : hasSpecFile fs specDir = true) by (apply hasSpecFile_true; eauto).
      rewrite Hs. split; [|intros [? _]; discriminate].
      intros [= Hnil]. now apply app_eq_nil in Hnil as [_ ?].
    + apply hasSpecFile_false in E. rewrite E.
      split; [intros [= ->]; auto | intros [_ ->]; reflexivity].
  - unfold main. destruct (findCases fs specDir) as [[|tc tcs]|cause] eqn:E; cbn.
    + tauto.
    + split; discriminate.
    + split; [|discriminate]. intros [= ->].
      unfold findCases in E. rewrite Hroot in E. discriminate.
Qed.
(** ** Attribute paths: names, indices, bounds *)

Lemma numericKeys_attrs (names : list string) :
  numericKeys (Cty.GetAttrStep <$> names).
Proof.
  intros key Hin. apply list_elem_of_In, list_elem_of_fmap in Hin as (n & Hn & _).
  discriminate.
Qed.

Lemma renderSteps_attrs n (names : list string) :
  n ++ renderSteps false (Cty.GetAttrStep <$> names) = String.concat "." (n :: names).
Proof.
  revert n. induction names as [|m names IH]; intros n.
  - cbn. apply append_empty_r.
  - change (String.concat "." (n :: m :: names))
      with (n ++ "." ++ String.concat "." (m :: names)).
    rewrite <- IH. cbn. now rewrite !append_assoc.
Qed.

(** X12. A path made of attribute steps only is rendered as the names
    joined by dots. *)
Theorem attribute_path_is_dotted (names : list string) :
  formatPath (Cty.GetAttrStep <$> names) = Some (String.concat "." names).
Proof.
  unfold formatPath. rewrite formatPath_loop_render by apply numericKeys_attrs.
  destruct names as [|n names]; [reflexivity|].
  change (Nat.eqb 0 0) with true. rewrite fmap_cons.
  change (renderSteps true (Cty.GetAttrStep n :: ?l))
    with (n ++ renderSteps false l).
  rewrite renderSteps_attrs. reflexivity.
Qed.

Lemma formatPath_snoc_index p s f :
  formatPath p = Some s ->
  formatPath (p ++ [Cty.IndexStep (Cty.NumberVal f)])%list
  = Some (s ++ "[" ++ Strconv.Itoa (fst (Cty.Int64 f)) ++ "]").
Proof.
  intros Hp. unfold formatPath in *. rewrite (formatPath_loop_app _ _ _ _ _ Hp).
  cbn [formatPath_loop Cty.AsBigFloat]. now destruct (Cty.Int64 f).
Qed.

(** X13. An index beyond the range of a 64-bit integer is not rendered
    as it is: every key above the range, infinity included, is rendered
    [[9223372036854775807]], and every key below it
    [[-9223372036854775808]]. *)
Theorem index_out_of_range_saturates p s :
  formatPath p = Some s ->
  (forall m e, Cty.MaxInt64 < Cty.trunc m e ->
     formatPath (p ++ [Cty.IndexStep (Cty.NumberVal (Cty.Finite m e))])%list
     = Some (s ++ "[9223372036854775807]"))
  /\ (forall m e, Cty.trunc m e < Cty.MinInt64 ->
        formatPath (p ++ [Cty.IndexStep (Cty.NumberVal (Cty.Finite m e))])%list
        = Some (s ++ "[-9223372036854775808]"))
  /\ formatPath (p ++ [Cty.IndexStep (Cty.NumberVal (Cty.Inf false))])%list
     = Some (s ++ "[9223372036854775807]")
  /\ formatPath (p ++ [Cty.IndexStep (Cty.NumberVal (Cty.Inf true))])%list
     = Some (s ++ "[-9223372036854775808]").
Proof.
  intros Hp. repeat split; intros; rewrite (formatPath_snoc_index _ _ _ Hp);
    try reflexivity; unfold Cty.Int64.
  - destruct (Z.ltb_spec (Cty.trunc m e) Cty.MinInt64) as [Hlo|_].
    + unfold Cty.MinInt64, Cty.MaxInt64 in *. lia.
    + destruct (Z.ltb_spec Cty.MaxInt64 (Cty.trunc m e)); [reflexivity | lia].
  - destruct (Z.ltb_spec (Cty.trunc m e) Cty.MinInt64); [reflexivity | lia].
Qed.

Lemma Itoa_inj a b : Strconv.Itoa a = Strconv.Itoa b -> a = b.
Proof.
  unfold Strconv.Itoa. intros Heq. apply DecimalZ.to_int_inj.
  assert (Hnn : forall z, Z.to_int z <> Decimal.Pos Decimal.Nil
                          /\ Z.to_int z <> Decimal.Neg Decimal.Nil).
  { intros [|q|q]; cbn; split; try discriminate;
      intros [= Hq]; now apply DecimalPos.Unsigned.to_uint_nonnil in Hq. }
  assert (Hs : Some (Z.to_int a) = Some (Z.to_int b)).
  { rewrite <- (NilZero.isi (Z.to_int a)), <- (NilZero.isi (Z.to_int b));
      try apply Hnn. now rewrite Heq. }
  now injection Hs.
Qed.

Lemma append_inj_last a b c : a ++ String c "" = b ++ String c "" -> a = b.
Proof.
  revert b. induction a as [|x a IH]; intros [|y b] Heq.
  - reflexivity.
  - change (String c "" = String y (b ++ String c "")) in Heq.
    injection Heq as _ Hb. now destruct b.
  - change (String x (a ++ String c "") = String c "") in Heq.
    injection Heq as _ Ha. now destruct a.
  - change (String x (a ++ String c "") = String y (b ++ String c "")) in Heq.
    injection Heq as -> Heq. f_equal. now apply IH.
Qed.

(** X14. The elements of a list are told apart: after a path that can
    be rendered, two whole-number indices within the range of a 64-bit
    integer give the same text only if they are the same index. *)
Theorem indices_are_told_apart p i j :
  numericKeys p ->
  Cty.MinInt64 <= i <= Cty.MaxInt64 ->
  Cty.MinInt64 <= j <= Cty.MaxInt64 ->
  formatPath (p ++ [listIndex i])%list = formatPath (p ++ [listIndex j])%list ->
  i = j.
Proof.
  intros Hp Hi Hj Heq.
  assert (Hs : formatPath p = Some (renderSteps true p)).
  { unfold formatPath. now rewrite formatPath_loop_render. }
  unfold listIndex in Heq. rewrite !(formatPath_snoc_index _ _ _ Hs) in Heq.
  assert (Ht : forall n, Cty.trunc n 0 = n) by (intros n; unfold Cty.trunc; cbn; lia).
  rewrite !Int64_in_range in Heq by (rewrite Ht; assumption).
  rewrite !Ht in Heq. injection Heq as Heq.
  apply (inj (String.app _)), (inj (String.app _)) in Heq.
  now apply append_inj_last, Itoa_inj in Heq.
Qed.
(** ** Console output *)

Lemma formatPath_loop_Some path : forall sb i,
  is_Some (formatPath_loop sb i path) -> numericKeys path.
Proof.
  induction path as [|step rest IH]; intros sb i Hs key Hin; [destruct Hin|].
  destruct step as [n|k]; cbn in Hs.
  - destruct Hin as [Heq|Hin]; [discriminate|]. eapply IH; eauto.
  - destruct k; cbn in Hs; try (now destruct Hs).
    destruct (Cty.Int64 f). destruct Hin as [[= <-]|Hin]; [reflexivity|].
    eapply IH; eauto.
Qed.

Lemma formatPath_Some_iff path : is_Some (formatPath path) <-> numericKeys path.
Proof.
  split; [apply formatPath_loop_Some|].
  intros Hn. unfold formatPath. rewrite formatPath_loop_render by assumption. eauto.
Qed.

Section PrintingFacts.
Variable isTerraspec : Diagnostic -> bool.
Variable Subject : Diagnostic -> option SourceRange.

Lemma printDiag_ok diag : snd (printDiag isTerraspec Subject diag) = true <-> printable isTerraspec diag.
Proof.
  unfold printDiag, printable.
  destruct (isTerraspec diag); [|split; [discriminate | reflexivity]].
  destruct (Attribute diag) as [path|]; [|split; [discriminate | reflexivity]].
  destruct (formatPath path) as [text|] eqn:E; cbn.
  - split; [|reflexivity]. intros _ _ p [= <-].
    apply formatPath_Some_iff. rewrite E. eauto.
  - split; [discriminate|]. intros Hp.
    specialize (Hp eq_refl path eq_refl). apply formatPath_Some_iff in Hp.
    rewrite E in Hp. now destruct Hp.
Qed.

Lemma printDiag_crash diag :
  snd (printDiag isTerraspec Subject diag) = false ->
  fst (printDiag isTerraspec Subject diag) = [FmtPrint (if isInfo diag then " ✔  " else " ❌  ")].
Proof.
  unfold printDiag.
  destruct (isTerraspec diag); [|discriminate].
  destruct (Attribute diag) as [path|]; [|discriminate].
  destruct (formatPath path); [discriminate | reflexivity].
Qed.

Lemma printDiags_app a b :
  printDiags isTerraspec Subject (a ++ b)%list
  = if snd (printDiags isTerraspec Subject a)
    then ((fst (printDiags isTerraspec Subject a) ++ fst (printDiags isTerraspec Subject b))%list, snd (printDiags isTerraspec Subject b))
    else printDiags isTerraspec Subject a.
Proof.
  induction a as [|d a IH]; cbn [app printDiags].
  - now destruct (printDiags isTerraspec Subject b).
  - destruct (printDiag isTerraspec Subject d) as [out [|]]; [|reflexivity].
    rewrite IH. destruct (printDiags isTerraspec Subject a) as [outa [|]]; cbn.
    + destruct (printDiags isTerraspec Subject b). cbn. now rewrite app_assoc.
    + reflexivity.
Qed.

(** X15. [printDiags] prints all the diagnostics unless it meets a
    terraspec diagnostic whose attribute path has an index key that is
    not a number (the key of a map, say): there [formatPath] panics, and
    what has been printed is the output for the diagnostics before it
    followed by the mark of the one that cannot be printed. *)
Theorem printDiags_completes_iff (ctxDiags : Diagnostics) :
  (snd (printDiags isTerraspec Subject ctxDiags) = true <-> Forall (printable isTerraspec) ctxDiags)
  /\ (forall pre diag post,
        ctxDiags = (pre ++ diag :: post)%list ->
        Forall (printable isTerraspec) pre -> ~ printable isTerraspec diag ->
        printDiags isTerraspec Subject ctxDiags
        = ((fst (printDiags isTerraspec Subject pre)
            ++ [FmtPrint (if isInfo diag then " ✔  " else " ❌  ")])%list, false)).
Proof.
  assert (Hok : forall ds, snd (printDiags isTerraspec Subject ds) = true <-> Forall (printable isTerraspec) ds).
  { induction ds as [|d ds IH]; [split; [constructor | reflexivity]|].
    rewrite Forall_cons, <- IH, <- printDiag_ok. cbn [printDiags].
    destruct (printDiag isTerraspec Subject d) as [out [|]]; cbn.
    - destruct (printDiags isTerraspec Subject ds) as [out1 ok1]. cbn. tauto.
    - split; [discriminate | intros [? _]; discriminate]. }
  split; [apply Hok|].
  intros pre diag post -> Hpre Hd. rewrite printDiags_app.
  apply Hok in Hpre. rewrite Hpre. cbn [printDiags].
  assert (Hc : snd (printDiag isTerraspec Subject diag) = false).
  { destruct (snd (printDiag isTerraspec Subject diag)) eqn:E; [|reflexivity].
    apply printDiag_ok in E. contradiction. }
  pose proof (printDiag_crash _ Hc) as Hout.
  destruct (printDiag isTerraspec Subject diag) as [out ok]. cbn in *. subst. reflexivity.
Qed.

Lemma linesOf_printDiag diag :
  snd (printDiag isTerraspec Subject diag) = true ->
  linesOf (fst (printDiag isTerraspec Subject diag)) = [[ArgString (Detail diag)]].
Proof.
  unfold printDiag.
  destruct (isTerraspec diag).
  - destruct (Attribute diag) as [path|].
    + destruct (formatPath path); [|discriminate]. now destruct (isInfo diag).
    + now destruct (isInfo diag).
  - intros _. destruct (Subject diag), (negb (Summary diag =? "")%string); reflexivity.
Qed.

Lemma linesOf_printDiags ds :
  snd (printDiags isTerraspec Subject ds) = true ->
  linesOf (fst (printDiags isTerraspec Subject ds)) = (fun d => [ArgString (Detail d)]) <$> ds.
Proof.
  induction ds as [|d ds IH]; [reflexivity|]. cbn [printDiags].
  pose proof (linesOf_printDiag d) as Hd.
  destruct (printDiag isTerraspec Subject d) as [out [|]]; [|discriminate].
  destruct (printDiags isTerraspec Subject ds) as [out1 ok1]. cbn in *. intros ->.
  unfold linesOf in *. rewrite omap_app, Hd, IH by reflexivity. reflexivity.
Qed.

(** X16. When it gets to its end, the body of [main]'s loop writes one
    line with the name of the case, one with the plan text if
    [--display-plan] is set, and then one line for each diagnostic of
    the report, in order, that ends with the detail of the
    diagnostic. *)
Theorem printReport_lines (displayPlan : bool) (r : testReport) :
  snd (printReport isTerraspec Subject displayPlan r) = true ->
  linesOf (fst (printReport isTerraspec Subject displayPlan r))
  = ([ArgString (rname r)]
     :: (if displayPlan then [[ArgString (plan r)]] else [])
     ++ ((fun d => [ArgString (Detail d)]) <$> report r))%list.
Proof.
  unfold printReport. pose proof (linesOf_printDiags (report r)) as Hl.
  destruct (printDiags isTerraspec Subject (report r)) as [out ok]. cbn in *. intros ->.
  unfold linesOf in *. cbn [omap list_omap]. 
  change (lineOf (FmtPrintf ("🏷  %s" ++ newline) [ArgString (rname r)]))
    with (Some [ArgString (rname r)]).
  cbn. f_equal. rewrite omap_app, Hl by reflexivity.
  now destruct displayPlan.
Qed.

End PrintingFacts.
(** ** The further properties on the scenarios *)

Section DemoExtras.
Local Existing Instance demoEngine.

Lemma run_is_bounded_witness :
  exists ls s,
    exec pairHandler (spawn false [badCase; goodCase] 0%nat) ls s
    /\ status s = Exited 1
    /\ (length ls <= 26)%nat.
Proof.
  destruct pair_run as (ls & s & Hex & Hst & _).
  exists ls, s. split; [exact Hex|]. split; [assumption|].
  exact (run_is_bounded pairHandler false [badCase; goodCase] 0%nat ls s Hex).
Defined.

Lemma wait_group_counts_unfinished_witness :
  exists ls s,
    exec pairHandler (spawn false [badCase; goodCase] 0%nat) ls s
    /\ status s = Exited 1
    /\ wg s = length (filter isRunning (tasks s)).
Proof.
  destruct pair_run as (ls & s & Hex & Hst & _).
  exists ls, s. split; [exact Hex|]. split; [assumption|].
  exact (proj1 (wait_group_counts_unfinished pairHandler false
                  [badCase; goodCase] 0%nat ls s Hex)).
Defined.

Lemma received_names_are_case_names_witness :
  exists ls s tcs,
    exec pairHandler (main pairFS "suite" false 0%nat) ls s
    /\ findCases pairFS "suite" = Returns tcs
    /\ rname <$> received s ≡ₚ name <$> tcs.
Proof.
  destruct pair_run as (ls & s & Hex & Hst & _).
  destruct (received_names_are_case_names pairHandler _ _ _ _ _ _ _ Hex Hst)
    as (tcs & Hf & Hp).
  exists ls, s, tcs. split; [exact Hex|]. split; assumption.
Defined.

Lemma process_progress_witness :
  exists ch l s1,
    fire pairHandler ch (spawn false [badCase; goodCase] 0%nat) = Some (l, s1).
Proof.
  apply (process_progress pairHandler false [badCase; goodCase] 0%nat []).
  - constructor.
  - reflexivity.
Defined.

Lemma no_test_case_iff_witness :
  status (main demoFS "spec/none" false 0%nat) = Aborted FatalNoTestCase.
Proof.
  destruct (no_test_case_iff demoFS "spec/none" _ false 0%nat eq_refl)
    as [Hnone Hmain].
  apply Hmain, Hnone. split; [reflexivity|]. repeat constructor.
Defined.

End DemoExtras.

Lemma case_names_are_directory_names_witness :
  exists tcs,
    findCases demoFS "spec" = Returns tcs
    /\ name <$> tcs = ["plain"; "two"; "spec"].
Proof.
  destruct (case_names_are_directory_names demoFS "spec" _ eq_refl)
    as (tcs & Hf & Hn).
  - repeat constructor.
  - exists tcs. split; [exact Hf | exact Hn].
Defined.

Lemma pairFS_sameEntries : sameEntries pairFS pairFSshuffled.
Proof.
  intros d. unfold pairFS, pairFSshuffled.
  repeat match goal with
         | |- context [(d =? ?x)%string] => destruct (d =? x)%string
         end; try exact I;
    (split; [first [reflexivity | apply perm_swap]
            | apply (bool_decide_unpack _); vm_compute; exact I]).
Qed.

Lemma discovery_ignores_listing_order_witness :
  findCases pairFS "suite" = findCases pairFSshuffled "suite".
Proof.
  apply discovery_ignores_listing_order, pairFS_sameEntries.
Defined.

Lemma index_out_of_range_saturates_witness :
  formatPath [Cty.GetAttrStep "rule";
              Cty.IndexStep (Cty.NumberVal (Cty.Finite 1 64))]
  = Some "rule[9223372036854775807]".
Proof.
  destruct (index_out_of_range_saturates [Cty.GetAttrStep "rule"] "rule" eq_refl)
    as (Habove & _).
  apply (Habove 1 64). reflexivity.
Defined.

Lemma indices_are_told_apart_witness :
  formatPath [Cty.GetAttrStep "rule"; listIndex 7]
  = formatPath [Cty.GetAttrStep "rule"; listIndex (3 + 4)]
  /\ 7 = 3 + 4.
Proof.
  split; [reflexivity|].
  apply (indices_are_told_apart [Cty.GetAttrStep "rule"]).
  - intros key [Hk|[]]. discriminate.
  - unfold Cty.MinInt64, Cty.MaxInt64. lia.
  - unfold Cty.MinInt64, Cty.MaxInt64. lia.
  - reflexivity.
Defined.

Lemma printDiags_completes_iff_witness :
  printDiags allTerraspec noSubject [infoDiag "ami-123"; mapKeyDiag; errorDiag "late"]
  = ([FmtPrint " ✔  "; ColorPrintf "[bold]%s " [ArgString "ami"];
      ColorPrintf ("= [green]%s" ++ newline) [ArgString "ami-123"];
      FmtPrint " ❌  "], false).
Proof.
  destruct (printDiags_completes_iff allTerraspec noSubject
              [infoDiag "ami-123"; mapKeyDiag; errorDiag "late"]) as [_ Hcrash].
  rewrite (Hcrash [infoDiag "ami-123"] mapKeyDiag [errorDiag "late"] eq_refl).
  - reflexivity.
  - constructor; [|constructor].
    intros _ path [= <-] key [Hk|[]]. discriminate.
  - intros Hp.
    specialize (Hp eq_refl _ eq_refl (Cty.StringVal "env")). cbn in Hp.
    discriminate Hp. auto.
Defined.

Lemma printReport_lines_witness :
  linesOf (fst (printReport allTerraspec noSubject true demoReport))
  = [[ArgString "plain"]; [ArgString "the plan"]; [ArgString "ami-123"]].
Proof.
  rewrite (printReport_lines allTerraspec noSubject true demoReport eq_refl).
  reflexivity.
Defined.
